(** * check_i18n: translation-key cross-check (scripts/check_i18n.py)

    A shallow embedding of the script: the compiled key pattern and
    [findall], the extractor [find_tr_keys], the reporter [check_langs]
    and the entry point, followed by the properties of the specification.

    Conventions of the embedding.
    - Python [str] values are lists of Unicode code points ([N]).
    - The file system and the process are a record of oracles, one field
      per library call the script makes ([os.walk], [open(..).read()],
      [os.listdir], [json.load], [os.path.exists], [os.getcwd]).
    - Effects are a trace of events (every [print] and every file-system
      access, in program order) together with either a result or a raised
      exception.
    - Standard output is a stream with an encoding and an error handler.
      A [print] whose text the stream cannot encode raises
      UnicodeEncodeError; on the UTF-8 stream the entry point sets up, that
      is a text with a lone surrogate (a file name that is not valid UTF-8,
      a JSON key written with an escaped surrogate). *)

From Stdlib Require Import Ascii String.
From stdpp Require Import base decidable option list sorting gmap pretty.

Set Warnings "-clear-no-such-hyp".

Local Open Scope N_scope.
Local Open Scope list_scope.

(** ** Text *)

Abbreviation char := N (only parsing).
Abbreviation str := (list N) (only parsing).

(** Code points of an ASCII literal. *)
Definition cp (s : string) : str :=
  map N_of_ascii (list_ascii_of_string s).

Definition dquote : char := 34.
Definition squote : char := 39.
Definition newline : char := 10.

(** [s.endswith(suffix)] *)
Definition endswith (s suffix : str) : bool :=
  bool_decide (drop (length s - length suffix) s = suffix).

(** [os.path.join(a, b)] for a relative component [b] (POSIX flavour). *)
Definition path_join (a b : str) : str :=
  match last a with
  | None => b
  | Some c => if bool_decide (c = 47) then a ++ b else a ++ 47 :: b
  end.

(** [str(n)] for a non-negative integer. *)
Definition str_of_nat (n : nat) : str := cp (pretty n).

(** ** The [re] engine, as far as the key pattern needs it *)

Module Re.

(** Character sets. *)
Inductive cset :=
| Lit (c : char)             (* a literal character *)
| Space                      (* \s on a str pattern: Unicode whitespace *)
| OneOf (cs : list char)     (* [...] *)
| NoneOf (cs : list char).   (* [^...] *)

(** [str.isspace] of one code point, which is what \s tests. *)
Definition is_space (c : char) : bool :=
  ((9 <=? c) && (c <=? 13)) || ((28 <=? c) && (c <=? 32))
  || (c =? 133) || (c =? 160) || (c =? 5760)
  || ((8192 <=? c) && (c <=? 8202))
  || (c =? 8232) || (c =? 8233) || (c =? 8239) || (c =? 8287)
  || (c =? 12288).

Definition cset_mem (cs : cset) (c : char) : bool :=
  match cs with
  | Lit d => c =? d
  | Space => is_space c
  | OneOf l => bool_decide (c ∈ l)
  | NoneOf l => negb (bool_decide (c ∈ l))
  end.

(** Greedy quantifiers. *)
Inductive quant := Once | ZeroOrMore | OneOrMore.

(** A compiled pattern is a sequence of operations; the two marks delimit
    capture group 1. *)
Inductive op :=
| Chars (q : quant) (cs : cset)
| MarkOpen
| MarkClose.

(** Greedy repetition with backtracking: take as many characters of [p]
    as there are, then give characters back one at a time until the
    continuation [k] succeeds; at least [min] are kept. *)
Fixpoint repeat_greedy {R} (k : str → option R) (p : char → bool)
    (min : nat) (s : str) : option R :=
  let stop := match min with O => k s | S _ => None end in
  match s with
  | c :: s' =>
      if p c then
        match repeat_greedy k p (pred min) s' with
        | Some r => Some r
        | None => stop
        end
      else stop
  | [] => stop
  end.

(** Run a pattern at the head of [s]. [opened] is the text at the opening
    mark, [cap] the text captured by group 1. The result is the capture
    and the text left after the match. *)
Fixpoint run (prog : list op) (opened cap : option str) (s : str)
    : option (option str * str) :=
  match prog with
  | [] => Some (cap, s)
  | Chars Once cs :: prog' =>
      match s with
      | c :: s' => if cset_mem cs c then run prog' opened cap s' else None
      | [] => None
      end
  | Chars ZeroOrMore cs :: prog' =>
      repeat_greedy (run prog' opened cap) (cset_mem cs) 0 s
  | Chars OneOrMore cs :: prog' =>
      repeat_greedy (run prog' opened cap) (cset_mem cs) 1 s
  | MarkOpen :: prog' => run prog' (Some s) cap s
  | MarkClose :: prog' =>
      run prog' opened
        ((λ o : str, take (length o - length s) o) <$> opened) s
  end.

(** A match attempt at the head of [s]: group 1 and the number of
    characters the whole match consumed. *)
Definition match_at (prog : list op) (s : str) : option (str * nat) :=
  match run prog None None s with
  | Some (cap, rest) => Some (default [] cap, (length s - length rest)%nat)
  | None => None
  end.

(** [pattern.findall(s)] for a pattern with one group: scan from left to
    right, collect group 1 of every match and resume where the match
    ended. [skip] counts the characters of the last match still to be
    passed over. *)
Fixpoint findall_from (prog : list op) (skip : nat) (s : str) : list str :=
  match s with
  | [] => []
  | _ :: s' =>
      match skip with
      | S n => findall_from prog n s'
      | O =>
          match match_at prog s with
          | Some (k, n) => k :: findall_from prog (pred n) s'
          | None => findall_from prog 0 s'
          end
      end
  end.

Definition findall (prog : list op) (s : str) : list str :=
  findall_from prog 0 s.

End Re.

Import Re.

(** ** find_tr_keys: the pattern *)

Definition quotes : list char := [dquote; squote].

(** [\.tr\s*\(\s*[QUOTES]([^QUOTES]+)[QUOTES]\s*\)] where QUOTES is the
    double and the single quote. re.MULTILINE only changes the anchors,
    and the pattern has none. *)
Definition pattern : list op :=
  [ Chars Once (Lit 46); Chars Once (Lit 116); Chars Once (Lit 114);
    Chars ZeroOrMore Space;
    Chars Once (Lit 40);
    Chars ZeroOrMore Space;
    Chars Once (OneOf quotes);
    MarkOpen; Chars OneOrMore (NoneOf quotes); MarkClose;
    Chars Once (OneOf quotes);
    Chars ZeroOrMore Space;
    Chars Once (Lit 41) ].

(** ** Effects: a trace of events and a result or an exception *)

Inductive event :=
| EvWalk (directory : str)      (* os.walk(directory) *)
| EvRead (path : str)           (* open(path) for reading as UTF-8, f.read() *)
| EvListdir (directory : str)   (* os.listdir(directory) *)
| EvLoad (path : str)           (* open(path) likewise, json.load(f) *)
| EvPrint (text : str).         (* print(text) *)

Inductive exn :=
| Exception (msg : str)         (* an instance of Exception; msg is str(e) *)
| SystemExit (code : Z).        (* raised by sys.exit(code) *)

Definition M (A : Type) : Type := (list event * (exn + A))%type.

#[global] Instance M_ret : MRet M := λ A a, ([], inr a).

#[global] Instance M_bind : MBind M := λ A B f m,
  match m with
  | (t, inl e) => (t, inl e)
  | (t, inr a) => let '(t', r) := f a in (t ++ t', r)
  end.

Definition emit (ev : event) : M unit := ([ev], inr tt).
Definition raise {A} (e : exn) : M A := ([], inl e).

(** A library call that either returns or raises an Exception. *)
Definition returned {A} (r : str + A) : M A :=
  match r with
  | inl msg => raise (Exception msg)
  | inr a => mret a
  end.

(** [try: body / except Exception as e: handler(str(e))]. SystemExit is
    not an Exception and passes through. *)
Definition try_except {A} (body : M A) (handler : str → M A) : M A :=
  match body with
  | (t, inl (Exception msg)) => let '(t', r) := handler msg in (t ++ t', r)
  | _ => body
  end.

(** [for x in l: s = body(x, s)] *)
Fixpoint for_each {A S} (l : list A) (body : A → S → M S) (s : S) : M S :=
  match l with
  | [] => mret s
  | x :: l' => s' ← body x s; for_each l' body s'
  end.

Definition trace {A} (m : M A) : list event := m.1.
Definition outcome {A} (m : M A) : exn + A := m.2.

(** ** Standard output *)

(** The error handler of a text stream. [Lenient] stands for the handlers
    that never raise on UTF-8 (replace, ignore, backslashreplace,
    xmlcharrefreplace, namereplace, surrogatepass). *)
Inductive errors := Strict | SurrogateEscape | Lenient.

(** sys.stdout: a stream whose encoding is utf-8 (in any letter case),
    with its error handler, or a stream with another encoding, given by
    the message of the UnicodeEncodeError a text makes it raise, if any. *)
Inductive stream :=
| Utf8 (handler : errors)
| Other (write_error : str → option str).

Definition is_surrogate (c : char) : bool := (55296 <=? c) && (c <=? 57343).

(** The surrogates that stand for an undecodable byte (U+DC80..U+DCFF). *)
Definition is_escape (c : char) : bool := (56448 <=? c) && (c <=? 56575).

(** The characters the UTF-8 encoder gives up on. *)
Definition unencodable (h : errors) (c : char) : bool :=
  match h with
  | Strict => is_surrogate c
  | SurrogateEscape => is_surrogate c && negb (is_escape c)
  | Lenient => false
  end.

(** Length of the run of surrogates at the head of [s]. *)
Fixpoint surrogate_run (s : str) : nat :=
  match s with
  | c :: s' => if is_surrogate c then S (surrogate_run s') else O
  | [] => O
  end.

(** Where the UTF-8 encoder fails on [s], whose first character has index
    [pos]: the start of the range it reports, its end (the end of the run
    of surrogates) and the character at the start. *)
Fixpoint utf8_failure (h : errors) (pos : nat) (s : str)
    : option (nat * nat * char) :=
  match s with
  | [] => None
  | c :: s' =>
      if unencodable h c then Some (pos, (pos + surrogate_run s)%nat, c)
      else utf8_failure h (S pos) s'
  end.

Definition hex_digit (d : N) : char := if d <? 10 then 48 + d else 87 + d.

(** The format %04x of a character below U+10000. *)
Definition hex4 (c : char) : str :=
  [ hex_digit (c / 4096 mod 16); hex_digit (c / 256 mod 16);
    hex_digit (c / 16 mod 16); hex_digit (c mod 16) ].

(** str(e) of the UnicodeEncodeError for the range [start, stop). The
    character is a surrogate, which is written with \u and four digits. *)
Definition encode_error_message (start stop : nat) (c : char) : str :=
  cp "'utf-8' codec can't encode " ++
  (if bool_decide (stop = S start)
   then cp "character '\u" ++ hex4 c ++ cp "' in position " ++
        str_of_nat start
   else cp "characters in position " ++ str_of_nat start ++ cp "-" ++
        str_of_nat (pred stop)) ++
  cp ": surrogates not allowed".

(** The message of the error sys.stdout.write(text) raises, if it does. *)
Definition write_error (out : stream) (text : str) : option str :=
  match out with
  | Utf8 h =>
      match utf8_failure h 0 text with
      | Some (start, stop, c) => Some (encode_error_message start stop c)
      | None => None
      end
  | Other f => f text
  end.

(** ** The world the script runs in *)

#[warnings="-register-all"]
Inductive json :=
| JNull
| JBool (b : bool)
| JInt (n : Z)
| JFloat (repr : str)
| JString (s : str)
| JArray (items : list json)
| JObject (members : list (str * json)).

Record world := World {
  stdout_stream : stream;
  getcwd : str;
  path_exists : str → bool;
  (* the (root, dirs, files) triples os.walk yields, in order *)
  os_walk : str → list (str * list str * list str);
  (* open(path) for reading as UTF-8, then f.read(): the decoded text, or
     the message of the exception raised *)
  read_text : str → str + str;
  os_listdir : str → str + list str;
  (* open(path) likewise, then json.load(f) *)
  json_load : str → str + json
}.

(** [print(text)]: the text is encoded as a whole, so either the line is
    written or nothing is and UnicodeEncodeError (an Exception) is raised.
    The line terminator that follows is always encodable. *)
Definition print (w : world) (text : str) : M unit :=
  match write_error (stdout_stream w) text with
  | None => emit (EvPrint text)
  | Some msg => raise (Exception msg)
  end.

(** ** find_tr_keys *)

Definition source_ext : str := cp ".rs".

(** Body of the inner loop, for one file name of one directory. *)
Definition scan_file (w : world) (root file : str) (keys : gset str)
    : M (gset str) :=
  if endswith file source_ext then
    let path := path_join root file in
    try_except
      (emit (EvRead path);;
       content ← returned (read_text w path);
       let matches := findall pattern content in
       mret (foldl (λ ks m, {[m]} ∪ ks) keys matches))
      (λ e, print w (cp "Error reading " ++ path ++ cp ": " ++ e);;
            mret keys)
  else mret keys.

Definition find_tr_keys (w : world) (directory : str) : M (gset str) :=
  emit (EvWalk directory);;
  for_each (os_walk w directory)
    (λ '(root, _, files) keys, for_each files (scan_file w root) keys) ∅.

(** ** check_langs *)

Definition lang_ext : str := cp ".json".

Definition type_name (v : json) : str :=
  match v with
  | JNull => cp "NoneType"
  | JBool _ => cp "bool"
  | JInt _ => cp "int"
  | JFloat _ => cp "float"
  | JString _ => cp "str"
  | JArray _ => cp "list"
  | JObject _ => cp "dict"
  end.

(** [lang_data.keys()]: only a dict has the method. *)
Definition keys_of (v : json) : M (list str) :=
  match v with
  | JObject members => mret (members.*1)
  | _ => raise (Exception
           (squote :: type_name v ++ squote ::
            cp " object has no attribute 'keys'"))
  end.

(** Order of Python str values: lexicographic on code points. *)
Fixpoint str_leb (a b : str) : bool :=
  match a, b with
  | [], _ => true
  | _ :: _, [] => false
  | x :: a', y :: b' =>
      if x <? y then true else if x =? y then str_leb a' b' else false
  end.

Definition str_le (a b : str) : Prop := str_leb a b = true.

#[global] Instance str_le_dec a b : Decision (str_le a b) :=
  decide (str_leb a b = true).

(** The order in which a Python set yields its elements depends on the
    hashes of the run; [iter] stands for it. *)
Definition set_order := gset str → list str.

Definition iteration_order (iter : set_order) : Prop :=
  ∀ X, iter X ≡ₚ elements X.

(** [sorted(X)] of a set. *)
Definition sorted (iter : set_order) (X : gset str) : list str :=
  merge_sort str_le (iter X).

Definition bullet (k : str) : str := cp "    - " ++ k.

Definition missing_header : str :=
  cp "  " ++ 10060 :: cp " Missing translations (Used in code but NOT in JSON):".
Definition no_missing : str := cp "  " ++ 9989 :: cp " No missing keys.".
Definition orphan_header : str :=
  cp "  " ++ 9888 :: 65039 :: cp " Orphan keys (In JSON but NOT used in code):".
Definition no_orphan : str := cp "  " ++ 9989 :: cp " No orphan keys.".

(** One of the two blocks of a report: the header and the sorted keys, or
    the confirmation when the set is empty. *)
Definition report_block (iter : set_order) (w : world)
    (header none : str) (X : gset str) : M unit :=
  if bool_decide (X ≠ ∅) then
    print w header;;
    for_each (sorted iter X) (λ k _, print w (bullet k)) tt
  else print w none.

(** Body of the loop over the localization files. The loop reads
    [used_keys] and hands it on to the next iteration. *)
Definition check_lang_file (iter : set_order) (w : world)
    (lang_dir lang_file : str) (used_keys : gset str) : M (gset str) :=
  let path := path_join lang_dir lang_file in
  print w (newline :: cp "Checking: " ++ lang_file);;
  try_except
    (emit (EvLoad path);;
     lang_data ← returned (json_load w path);
     ks ← keys_of lang_data;
     let defined_keys : gset str := list_to_set ks in
     let missing := used_keys ∖ defined_keys in
     let extra := defined_keys ∖ used_keys in
     report_block iter w missing_header no_missing missing;;
     report_block iter w orphan_header no_orphan extra)
    (λ e, print w (cp "Error checking " ++ lang_file ++ cp ": " ++ e));;
  mret used_keys.

Definition found_header (n : nat) : str :=
  cp "--- [Found " ++ str_of_nat n ++
  cp " unique keys in Rust source code] ---".

Definition check_langs (iter : set_order) (w : world)
    (src_dir lang_dir : str) : M unit :=
  used_keys ← find_tr_keys w src_dir;
  print w (found_header (size used_keys));;
  emit (EvListdir lang_dir);;
  names ← returned (os_listdir w lang_dir);
  let lang_files := filter (λ f, endswith f lang_ext = true) names in
  for_each lang_files (check_lang_file iter w lang_dir) used_keys;;
  mret tt.

(** ** Entry point *)

Definition not_found_message : str :=
  cp "Error: Could not find 'src' or 'assets/lang' directory from current path.".

Definition src_path (w : world) : str := path_join (getcwd w) (cp "src").
Definition langs_path (w : world) : str :=
  path_join (path_join (getcwd w) (cp "assets")) (cp "lang").

(** The same world, with another standard output. *)
Definition with_stdout (w : world) (out : stream) : world := {|
  stdout_stream := out;
  getcwd := getcwd w;
  path_exists := path_exists w;
  os_walk := os_walk w;
  read_text := read_text w;
  os_listdir := os_listdir w;
  json_load := json_load w
|}.

(** The first lines of the entry point: a standard output whose encoding
    is not utf-8 is replaced by a UTF-8 stream over the same buffer, with
    the default error handler. *)
Definition force_utf8 (w : world) : world :=
  match stdout_stream w with
  | Utf8 _ => w
  | Other _ => with_stdout w (Utf8 Strict)
  end.

Definition main (iter : set_order) (w0 : world) : M unit :=
  let w := force_utf8 w0 in
  let src := src_path w in
  let langs := langs_path w in
  if negb (path_exists w src) || negb (path_exists w langs) then
    print w not_found_message;;
    raise (SystemExit 1)
  else check_langs iter w src langs.


(** What the run wrote to standard output. *)
Definition stdout {A} (m : M A) : str :=
  flat_map (λ ev, match ev with EvPrint text => text ++ [newline] | _ => [] end)
    (trace m).

(** * Vocabulary of the properties *)

(** ** What the extractor is expected to return *)

(** What one file contributes: the matches of the pattern in its text
    when its name has the source extension and it can be read. *)
Definition file_matches (w : world) (root file : str) : list str :=
  if endswith file source_ext then
    match read_text w (path_join root file) with
    | inr content => findall pattern content
    | inl _ => []
    end
  else [].

(** The matches of a whole tree, in the order of the walk. *)
Definition tree_matches (w : world) (directory : str) : list str :=
  flat_map (λ '(root, _, files), flat_map (file_matches w root) files)
    (os_walk w directory).

Definition read_error_line (path e : str) : str :=
  cp "Error reading " ++ path ++ cp ": " ++ e.

(** ** Runs of characters and the calls the pattern is written for *)

Definition cset_all_in (cs : cset) (w : str) : Prop :=
  Forall (λ c, cset_mem cs c = true) w.

(** The first character of [t], if any, is outside [cs]. *)
Definition cset_stops (cs : cset) (t : str) : Prop :=
  match t with
  | c :: _ => cset_mem cs c = false
  | [] => True
  end.

Definition cset_disjoint (cs cs' : cset) : Prop :=
  ∀ c, cset_mem cs c = true → cset_mem cs' c = false.

Definition spaces (ws : str) : Prop := Forall (λ c, is_space c = true) ws.
Definition quote_free (k : str) : Prop := Forall (λ c, c ∉ quotes) k.

(** The text of a call the pattern is written for, followed by [rest]:
    .tr, whitespace, an opening parenthesis, whitespace, a quote, the key,
    a quote, whitespace and the closing parenthesis. *)
Definition call_then (ws1 ws2 : str) (q1 : char) (k : str) (q2 : char)
    (ws3 rest : str) : str :=
  cp ".tr" ++ ws1 ++ 40 :: ws2 ++ q1 :: k ++ q2 :: ws3 ++ 41 :: rest.

Definition call_text (ws1 ws2 : str) (q1 : char) (k : str) (q2 : char)
    (ws3 : str) : str :=
  call_then ws1 ws2 q1 k q2 ws3 [].

(** ** The lines of a report *)

(** The lines of one block, given the keys in the order they are printed. *)
Definition block_lines (header none : str) (ks : list str) : list str :=
  match ks with
  | [] => [none]
  | _ => header :: map bullet ks
  end.

Definition checking_line (lang_file : str) : str :=
  newline :: cp "Checking: " ++ lang_file.

Definition error_line (lang_file e : str) : str :=
  cp "Error checking " ++ lang_file ++ cp ": " ++ e.

Definition lang_files_of (names : list str) : list str :=
  filter (λ f, endswith f lang_ext = true) names.

(** ** Kinds of events *)

Definition is_walk (ev : event) : bool :=
  match ev with EvWalk _ => true | _ => false end.

Definition no_walk (t : list event) : Prop :=
  Forall (λ ev, is_walk ev = false) t.

(** ** Example inputs *)

Definition is_path (p : str) (s : string) : bool := bool_decide (p = cp s).

(** The source text of the scenario: a call on one line and a call whose
    parentheses span three lines. *)
Definition scenario_source : str :=
  cp "widget.tr(" ++ dquote :: cp "hello.world" ++ dquote :: cp ");" ++
  newline :: cp "other.tr(" ++ newline :: cp "    'goodbye'" ++ newline ::
  cp ")".

(** The localization file of the scenario. *)
Definition scenario_lang : json :=
  JObject [(cp "hello.world", JString (cp "Hello"));
           (cp "extra.key", JString (cp "X"))].

(** A project with one readable source file, one that cannot be read, one
    localization file that parses and one that does not. *)
Definition demo_world : world := {|
  stdout_stream := Utf8 Strict;
  getcwd := cp "/proj";
  path_exists p := is_path p "/proj/src" || is_path p "/proj/assets/lang";
  os_walk d :=
    if is_path d "/proj/src" then
      [ (cp "/proj/src", [cp "ui"], [cp "main.rs"; cp "notes.txt"]);
        (cp "/proj/src/ui", [], [cp "locked.rs"]) ]
    else [];
  read_text p :=
    if is_path p "/proj/src/main.rs" then inr scenario_source
    else inl (cp "[Errno 13] Permission denied");
  os_listdir d :=
    if is_path d "/proj/assets/lang"
    then inr [cp "en.json"; cp "README.md"; cp "broken.json"]
    else inl (cp "[Errno 2] No such file or directory");
  json_load p :=
    if is_path p "/proj/assets/lang/en.json" then inr scenario_lang
    else inl (cp "Expecting value: line 1 column 1 (char 0)")
|}.


(** A source file whose call opens with a double quote and closes with a
    single one. *)
Definition mixed_quote_source : str :=
  cp "i18n.tr(" ++ dquote :: cp "key" ++ squote :: cp ")".

(** A tree that holds one source file with the given text. *)
Definition single_file_world (content : str) : world := {|
  stdout_stream := Utf8 Strict;
  getcwd := cp "/proj";
  path_exists p := true;
  os_walk d := [(d, [], [cp "lib.rs"])];
  read_text p := inr content;
  os_listdir d := inr [];
  json_load p := inl (cp "[Errno 2] No such file or directory")
|}.





(** An order of iteration other than that of [elements]. *)
Definition reversed_order : set_order := λ X, reverse (elements X).

(** ** Vocabulary of the further properties *)

(** The events of the extractor for one file name of one directory: the
    file is opened when its name has the source extension, and a line is
    printed when that fails. *)
Definition file_events (w : world) (root file : str) : list event :=
  if endswith file source_ext then
    let path := path_join root file in
    EvRead path ::
    match read_text w path with
    | inl e => [EvPrint (read_error_line path e)]
    | inr _ => []
    end
  else [].

Definition tree_events (w : world) (directory : str) : list event :=
  flat_map (λ '(root, _, files), flat_map (file_events w root) files)
    (os_walk w directory).

Definition is_print (ev : event) : bool :=
  match ev with EvPrint _ => true | _ => false end.

Definition only_prints (t : list event) : Prop :=
  Forall (λ ev, is_print ev = true) t.

(** The message of the AttributeError for a value without [keys]. *)
Definition no_keys_message (v : json) : str :=
  squote :: type_name v ++ squote :: cp " object has no attribute 'keys'".

(** The same world, with another result of os.walk. *)
Definition with_walk (w : world)
    (walk : str → list (str * list str * list str)) : world := {|
  stdout_stream := stdout_stream w;
  getcwd := getcwd w;
  path_exists := path_exists w;
  os_walk := walk;
  read_text := read_text w;
  os_listdir := os_listdir w;
  json_load := json_load w
|}.

(** The same world, with another result of json.load. *)
Definition with_json (w : world) (load : str → str + json) : world := {|
  stdout_stream := stdout_stream w;
  getcwd := getcwd w;
  path_exists := path_exists w;
  os_walk := os_walk w;
  read_text := read_text w;
  os_listdir := os_listdir w;
  json_load := load
|}.

(** ** What can be printed *)

(** The stream takes the text: [print] writes the line. *)
Definition can_print (w : world) (text : str) : Prop :=
  write_error (stdout_stream w) text = None.

(** The text holds no surrogate. *)
Definition clean (text : str) : Prop :=
  forallb (λ c, negb (is_surrogate c)) text = true.

(** The lines written when [lines] are printed in order: those before the
    first line the stream refuses. *)
Fixpoint written (w : world) (lines : list str) : list str :=
  match lines with
  | [] => []
  | l :: ls =>
      match write_error (stdout_stream w) l with
      | None => l :: written w ls
      | Some _ => []
      end
  end.

(** The message of the error the first refused line raises, if any. *)
Fixpoint refusal (w : world) (lines : list str) : option str :=
  match lines with
  | [] => None
  | l :: ls =>
      match write_error (stdout_stream w) l with
      | None => refusal w ls
      | Some msg => Some msg
      end
  end.

(** What printing [lines] in order does. *)
Definition print_lines (w : world) (lines : list str) : M unit :=
  (map EvPrint (written w lines),
   match refusal w lines with
   | None => inr tt
   | Some msg => inl (Exception msg)
   end).

(** The error of reading the file, if there is one, can be reported: the
    stream takes the line the handler prints. *)
Definition reportable (w : world) (root file : str) : Prop :=
  endswith file source_ext = true →
  ∀ e, read_text w (path_join root file) = inl e →
       can_print w (read_error_line (path_join root file) e).

Definition all_reportable (w : world) (directory : str) : Prop :=
  ∀ root dirs files file,
    (root, dirs, files) ∈ os_walk w directory → file ∈ files →
    reportable w root file.

(** What the handler of a localization file does with the message [e]:
    it prints the error line, and the loop body returns. *)
Definition after_error (w : world) (lang_file e : str)
    (used_keys : gset str) : M (gset str) :=
  print w (error_line lang_file e);; mret used_keys.

(** The whole report of a file, as lines. *)
Definition report_lines (ms es : list str) : list str :=
  block_lines missing_header no_missing ms ++
  block_lines orphan_header no_orphan es.

(** The lines of the block of the set [X]. *)
Definition block_of (iter : set_order) (header none : str)
    (X : gset str) : list str :=
  if decide (X = ∅) then [none] else header :: map bullet (sorted iter X).

(** What happens inside the try of a localization file: the lines that
    are written, and the message of the exception the handler catches, if
    one is raised (by the load, by [keys] or by a print). *)
Definition guarded (iter : set_order) (w : world)
    (lang_dir lang_file : str) (used_keys : gset str)
    : list str * option str :=
  match json_load w (path_join lang_dir lang_file) with
  | inl e => ([], Some e)
  | inr (JObject members) =>
      let defined_keys : gset str := list_to_set members.*1 in
      let report :=
        block_of iter missing_header no_missing
          (used_keys ∖ defined_keys) ++
        block_of iter orphan_header no_orphan
          (defined_keys ∖ used_keys) in
      (written w report, refusal w report)
  | inr v => ([], Some (no_keys_message v))
  end.

(** How the loop body ends: it returns, after the handler has printed the
    error line when there was an exception to catch. *)
Definition section_end (w : world) (lang_file : str)
    (used_keys : gset str) (caught : option str) : M (gset str) :=
  match caught with
  | None => mret used_keys
  | Some e => after_error w lang_file e used_keys
  end.


(** * Properties *)

Lemma elem_of_flat_map {A B} (f : A → list B) (l : list A) (y : B) :
  y ∈ flat_map f l ↔ ∃ x, x ∈ l ∧ y ∈ f x.
Proof.
  rewrite list_elem_of_In, in_flat_map.
  split; intros (x & Hx & Hy); exists x; by rewrite ?list_elem_of_In in *.
Qed.

(** ** The effect monad *)

Section monad.
Context {A B : Type}.

Lemma bind_returns (m : M A) (f : A → M B) (a : A) :
  outcome m = inr a → m ≫= f = (trace m ++ trace (f a), outcome (f a)).
Proof.
  destruct m as [t [e|a']]; cbn; intros [= ->].
  unfold mbind, M_bind. by destruct (f a).
Qed.

Lemma bind_raises (m : M A) (f : A → M B) (e : exn) :
  outcome m = inl e → m ≫= f = (trace m, inl e).
Proof. destruct m as [t [e'|a]]; cbn; by intros [= ->]. Qed.

Lemma ret_bind (a : A) (f : A → M B) : mret a ≫= f = f a.
Proof. unfold mret, M_ret, mbind, M_bind. by destruct (f a). Qed.

Lemma emit_bind (ev : event) (m : M B) :
  (emit ev;; m) = (ev :: trace m, outcome m).
Proof. unfold emit, mbind, M_bind. by destruct m. Qed.

Lemma emit_bind_unit (ev : event) (f : unit → M B) :
  emit ev ≫= f = (ev :: trace (f tt), outcome (f tt)).
Proof. unfold emit, mbind, M_bind. by destruct (f tt). Qed.

(** A line that can be printed is written and the run goes on. *)
Lemma print_bind w (text : list N) (f : unit → M B) :
  can_print w text →
  print w text ≫= f = (EvPrint text :: trace (f tt), outcome (f tt)).
Proof. intros H. unfold print. rewrite H. apply emit_bind_unit. Qed.

(** A line that cannot raises, and nothing is written. *)
Lemma print_refused w (text msg : list N) (f : unit → M B) :
  write_error (stdout_stream w) text = Some msg →
  print w text ≫= f = ([], inl (Exception msg)).
Proof. intros H. unfold print. by rewrite H. Qed.

End monad.

Lemma print_cases w (text : list N) :
  (can_print w text ∧ print w text = ([EvPrint text], inr tt)) ∨
  (∃ msg, write_error (stdout_stream w) text = Some msg ∧
          print w text = ([], inl (Exception msg))).
Proof.
  unfold can_print, print.
  destruct (write_error (stdout_stream w) text) as [msg|]; [right|left]; eauto.
Qed.

Lemma try_except_returns {A} (body : M A) handler (a : A) :
  outcome body = inr a → try_except body handler = body.
Proof. destruct body as [t [e|a']]; cbn; by intros [= ->]. Qed.

Lemma try_except_catches {A} (body : M A) handler msg :
  outcome body = inl (Exception msg) →
  try_except body handler
  = (trace body ++ trace (handler msg), outcome (handler msg)).
Proof.
  destruct body as [t [e|a']]; cbn; intros [= ->]. by destruct (handler msg).
Qed.

(** A loop whose bodies return runs to its end. *)
Lemma for_each_returns {A S} (body : A → S → M S) (g : A → S → S) l s :
  (∀ x, x ∈ l → ∀ s, outcome (body x s) = inr (g x s)) →
  outcome (for_each l body s) = inr (foldl (flip g) s l).
Proof.
  revert s. induction l as [|x l IH]; intros s Hb; [done|].
  cbn [for_each foldl].
  rewrite (bind_returns _ _ _ (Hb x ltac:(by left) s)). cbn.
  apply IH. intros y Hy. apply Hb. by right.
Qed.

(** When a loop returns, every body returned. *)
Lemma for_each_returned {A S} (body : A → S → M S) (g : A → S → S) l s s' :
  (∀ x s s', outcome (body x s) = inr s' → s' = g x s) →
  outcome (for_each l body s) = inr s' →
  s' = foldl (flip g) s l ∧
  ∀ x, x ∈ l → ∃ s0, outcome (body x s0) = inr (g x s0).
Proof.
  intros Hb. revert s. induction l as [|x l IH]; intros s Hr.
  - cbn in Hr. injection Hr as <-. split; [done|]. by intros x ?%elem_of_nil.
  - cbn [for_each] in Hr.
    destruct (body x s) as [t [e|s1]] eqn:Hx; [done|].
    pose proof (Hb x s s1 ltac:(by rewrite Hx)) as ->.
    rewrite (bind_returns (t, inr (g x s)) _ (g x s) eq_refl) in Hr.
    cbn [outcome snd] in Hr.
    destruct (IH _ Hr) as [-> Hall]. split; [done|].
    intros y [->|Hy]%elem_of_cons; [|by apply Hall].
    exists s. by rewrite Hx.
Qed.

(** A loop that hands its state on unchanged. *)
Lemma for_each_const {A S} (body : A → S → M S) l s :
  (∀ x, x ∈ l → outcome (body x s) = inr s) →
  for_each l body s = (flat_map (λ x, trace (body x s)) l, inr s).
Proof.
  induction l as [|x l IH]; intros Hb; [done|].
  cbn [for_each flat_map].
  rewrite (bind_returns _ _ _ (Hb x ltac:(by left))), IH; [done|].
  intros y Hy. apply Hb. by right.
Qed.

(** The events of a loop are events of its bodies. *)
Lemma for_each_trace_incl {A S} (body : A → S → M S)
    (tr : A → list event) l s ev :
  (∀ x s ev, ev ∈ trace (body x s) → ev ∈ tr x) →
  ev ∈ trace (for_each l body s) → ev ∈ flat_map tr l.
Proof.
  intros Hb. revert s. induction l as [|x l IH]; intros s Hev; [done|].
  cbn [for_each] in Hev. cbn [flat_map]. apply elem_of_app.
  specialize (Hb x s).
  destruct (body x s) as [t [e|s1]]; cbn [mbind M_bind] in Hev.
  - left. by apply Hb.
  - specialize (IH s1). destruct (for_each l body s1) as [t' r].
    apply elem_of_app in Hev as [Hev|Hev]; [left; by apply Hb|right; by apply IH].
Qed.

(** The events of a loop that returns are those of all its bodies. *)
Lemma for_each_trace {A S} (body : A → S → M S) (tr : A → list event)
    l s s' :
  (∀ x s s1, outcome (body x s) = inr s1 → trace (body x s) = tr x) →
  outcome (for_each l body s) = inr s' →
  trace (for_each l body s) = flat_map tr l.
Proof.
  intros Hb. revert s. induction l as [|x l IH]; intros s Hr; [done|].
  cbn [for_each] in *. cbn [flat_map].
  destruct (body x s) as [t [e|s1]] eqn:Hx; [done|].
  pose proof (Hb x s s1 ltac:(by rewrite Hx)) as Ht. rewrite Hx in Ht.
  cbn [trace fst] in Ht. subst t.
  rewrite (bind_returns (tr x, inr s1) _ s1 eq_refl) in *.
  cbn [trace outcome fst snd] in *. by rewrite (IH _ Hr).
Qed.

(** ** What the stream takes *)



Lemma clean_app (a b : list N) : clean (a ++ b) ↔ clean a ∧ clean b.
Proof. unfold clean. by rewrite forallb_app, andb_true_iff. Qed.

Lemma clean_cp s : clean (cp s).
Proof.
  unfold clean, cp. apply forallb_forall. intros c Hin.
  apply in_map_iff in Hin as (a & <- & _).
  pose proof (N_ascii_bounded a) as Hb. unfold is_surrogate.
  apply negb_true_iff, andb_false_iff. left. apply N.leb_gt. lia.
Qed.

Lemma clean_bullet k : clean (bullet k) ↔ clean k.
Proof.
  unfold bullet. rewrite clean_app. pose proof (clean_cp "    - "). tauto.
Qed.






Lemma clean_block_lines header none ks :
  clean header → clean none → Forall clean ks →
  Forall clean (block_lines header none ks).
Proof.
  intros Hh Hn Hks. unfold block_lines. destruct ks; [by repeat constructor|].
  constructor; [done|]. apply Forall_map.
  eapply Forall_impl; [done|]. intros k. apply clean_bullet.
Qed.

(** ** Printing lines in order *)

Lemma written_all w (lines : list (list N)) :
  Forall (can_print w) lines →
  written w lines = lines ∧ refusal w lines = None.
Proof.
  induction 1 as [|l ls Hl _ [IH1 IH2]]; [done|].
  cbn. unfold can_print in Hl. by rewrite Hl, IH1, IH2.
Qed.

Lemma print_lines_cons w (l : list N) ls :
  (print w l;; print_lines w ls) = print_lines w (l :: ls).
Proof.
  unfold print, print_lines. cbn [written refusal].
  destruct (write_error (stdout_stream w) l); [done|].
  by rewrite emit_bind_unit.
Qed.

Lemma print_lines_app w (a b : list (list N)) :
  (print_lines w a;; print_lines w b) = print_lines w (a ++ b).
Proof.
  induction a as [|l a IH].
  - change (print_lines w []) with (mret tt : M unit). by rewrite ret_bind.
  - cbn [app]. rewrite <- !print_lines_cons. unfold print.
    destruct (write_error (stdout_stream w) l); [done|].
    rewrite !emit_bind_unit. rewrite <- IH.
    destruct (print_lines w a) as [ta [ea|[]]]; [done|].
    cbn [mbind M_bind trace outcome fst snd]. by destruct (print_lines w b).
Qed.

Lemma print_bullets w (ks : list (list N)) :
  for_each ks (λ k (_ : unit), print w (bullet k)) tt
  = print_lines w (map bullet ks).
Proof.
  induction ks as [|k ks IH]; [done|].
  cbn [for_each map]. rewrite <- print_lines_cons, <- IH.
  destruct (print_cases w (bullet k)) as [[_ ->]|(msg & _ & ->)]; done.
Qed.

Lemma for_each_raised {A S} (body : A → S → M S) l s ex :
  outcome (for_each l body s) = inl ex →
  ∃ x s0, x ∈ l ∧ outcome (body x s0) = inl ex.
Proof.
  revert s. induction l as [|x l IH]; intros s Hr; [done|].
  cbn [for_each] in Hr. destruct (body x s) as [t [e|s1]] eqn:Hx.
  - cbn in Hr. injection Hr as ->. exists x, s. split; [by left|].
    by rewrite Hx.
  - rewrite (bind_returns (t, inr s1) _ s1 eq_refl) in Hr.
    cbn [outcome snd] in Hr. destruct (IH _ Hr) as (y & s0 & Hy & Ho).
    exists y, s0. split; [by right|done].
Qed.

Lemma for_each_no_walk {A S} (body : A → S → M S) l s :
  (∀ x s, no_walk (trace (body x s))) →
  no_walk (trace (for_each l body s)).
Proof.
  intros Hb. revert s. induction l as [|x l IH]; intros s; [constructor|].
  cbn [for_each]. specialize (Hb x s).
  destruct (body x s) as [t [e|s']]; [done|].
  specialize (IH s'). cbn [mbind M_bind].
  destruct (for_each l body s') as [t' r]. by apply Forall_app.
Qed.

(** ** The extractor *)

Lemma add_all (keys : gset (list N)) (l : list (list N)) :
  foldl (λ ks m, {[m]} ∪ ks) keys l = list_to_set l ∪ keys.
Proof.
  revert keys. induction l as [|m l IH]; intros keys; cbn.
  - set_solver.
  - rewrite IH. set_solver.
Qed.

Section scan_file.
Context (w : world) (root file : str) (keys : gset str).

Let path := path_join root file.

Lemma scan_file_other :
  endswith file source_ext = false →
  scan_file w root file keys = ([], inr keys).
Proof. intros H. unfold scan_file. by rewrite H. Qed.

Lemma scan_file_readable content :
  endswith file source_ext = true → read_text w path = inr content →
  scan_file w root file keys
  = ([EvRead path], inr (list_to_set (findall pattern content) ∪ keys)).
Proof.
  intros H Hr. unfold scan_file. fold path. rewrite H, emit_bind, Hr.
  cbn. by rewrite add_all.
Qed.

Lemma scan_file_unreadable e :
  endswith file source_ext = true → read_text w path = inl e →
  can_print w (read_error_line path e) →
  scan_file w root file keys
  = ([EvRead path; EvPrint (read_error_line path e)], inr keys).
Proof.
  intros H Hr Hp. unfold scan_file. fold path. rewrite H, emit_bind, Hr.
  cbn [returned]. rewrite (bind_raises (raise (Exception e)) _ _ eq_refl).
  cbn [raise trace outcome fst snd try_except].
  fold (read_error_line path e). by rewrite (print_bind _ _ _ Hp).
Qed.

(** When the error line cannot be printed, the handler raises and the
    error leaves the loop body. *)
Lemma scan_file_aborts e msg :
  endswith file source_ext = true → read_text w path = inl e →
  write_error (stdout_stream w) (read_error_line path e) = Some msg →
  scan_file w root file keys = ([EvRead path], inl (Exception msg)).
Proof.
  intros H Hr Hp. unfold scan_file. fold path. rewrite H, emit_bind, Hr.
  cbn [returned]. rewrite (bind_raises (raise (Exception e)) _ _ eq_refl).
  cbn [raise trace outcome fst snd try_except].
  fold (read_error_line path e). by rewrite (print_refused _ _ _ _ Hp).
Qed.

Lemma scan_file_cases :
  (reportable w root file ∧
   scan_file w root file keys
   = (file_events w root file,
      inr (list_to_set (file_matches w root file) ∪ keys))) ∨
  (∃ e msg,
     endswith file source_ext = true ∧ read_text w path = inl e ∧
     write_error (stdout_stream w) (read_error_line path e) = Some msg ∧
     scan_file w root file keys = ([EvRead path], inl (Exception msg))).
Proof.
  unfold reportable, file_events, file_matches. fold path.
  destruct (endswith file source_ext) eqn:Hext.
  - destruct (read_text w path) as [e|content] eqn:Hr.
    + destruct (write_error (stdout_stream w) (read_error_line path e))
        as [msg|] eqn:Hp.
      * right. exists e, msg. repeat split; try done.
        by apply (scan_file_aborts e).
      * left. split; [by intros _ e' [= <-]|].
        rewrite (scan_file_unreadable e) by done. f_equal. f_equal.
        set_solver.
    + left. split; [done|]. by rewrite (scan_file_readable content).
  - left. split; [done|]. rewrite scan_file_other by done. f_equal. f_equal.
    set_solver.
Qed.

Lemma scan_file_outcome :
  reportable w root file →
  outcome (scan_file w root file keys)
  = inr (list_to_set (file_matches w root file) ∪ keys).
Proof.
  intros Hrep.
  destruct scan_file_cases as [[_ ->]|(e & msg & Hext & Hr & Hp & _)]; [done|].
  specialize (Hrep Hext e Hr). unfold can_print in Hrep. fold path in Hrep.
  congruence.
Qed.

Lemma scan_file_returned keys' :
  outcome (scan_file w root file keys) = inr keys' →
  keys' = list_to_set (file_matches w root file) ∪ keys ∧
  reportable w root file ∧
  trace (scan_file w root file keys) = file_events w root file.
Proof.
  destruct scan_file_cases as [[Hrep ->]|(e & msg & _ & _ & _ & ->)];
    [|done].
  by intros [= <-].
Qed.

Lemma scan_file_trace_incl ev :
  ev ∈ trace (scan_file w root file keys) → ev ∈ file_events w root file.
Proof.
  destruct scan_file_cases as [[Hrep ->]|(e & msg & Hext & Hr & _ & ->)];
    [done|].
  cbn [trace fst]. intros [->|?%elem_of_nil]%elem_of_cons; [|done].
  unfold file_events. rewrite Hext. by left.
Qed.

Lemma scan_file_raised ex :
  outcome (scan_file w root file keys) = inl ex →
  ∃ text msg,
    write_error (stdout_stream w) text = Some msg ∧ ex = Exception msg.
Proof.
  destruct scan_file_cases as [[Hrep ->]|(e & msg & _ & _ & Hp & ->)];
    [done|].
  intros [= <-]. eauto.
Qed.

Lemma scan_file_no_walk : no_walk (trace (scan_file w root file keys)).
Proof.
  apply Forall_forall. intros ev Hev%scan_file_trace_incl.
  unfold file_events in Hev. destruct (endswith file source_ext);
    [|by apply elem_of_nil in Hev].
  apply elem_of_cons in Hev as [->|Hev]; [done|].
  destruct (read_text w _);
    [apply elem_of_cons in Hev as [->|Hev]; [done|]|];
    by apply elem_of_nil in Hev.
Qed.

End scan_file.

Lemma fold_file_matches (w : world) (root : list N)
    (files : list (list N)) (keys : gset (list N)) :
  foldl (flip (λ file keys, list_to_set (file_matches w root file) ∪ keys))
    keys files
  = list_to_set (flat_map (file_matches w root) files) ∪ keys.
Proof.
  revert keys. induction files as [|f files IH]; intros keys; cbn;
    [set_solver|].
  rewrite IH, list_to_set_app_L. set_solver.
Qed.

Lemma fold_dir_matches (w : world)
    (walk : list (list N * list (list N) * list (list N)))
    (keys : gset (list N)) :
  foldl
    (flip (λ '(root, _, files) keys,
       list_to_set
         (flat_map (file_matches w root) (files : list (list N))) ∪ keys))
    keys (walk : list (list N * list (list N) * list (list N)))
  = list_to_set
      (flat_map (λ '(root, _, files), flat_map (file_matches w root) files)
         walk) ∪ keys.
Proof.
  revert keys. induction walk as [|[[root dirs] files] walk IH];
    intros keys; cbn; [set_solver|].
  rewrite IH, list_to_set_app_L. set_solver.
Qed.

Lemma scan_dir_outcome (w : world) (root : list N)
    (files : list (list N)) (keys : gset (list N)) :
  (∀ file, file ∈ files → reportable w root file) →
  outcome (for_each files (scan_file w root) keys)
  = inr (list_to_set (flat_map (file_matches w root) files) ∪ keys).
Proof.
  intros Hrep.
  rewrite (for_each_returns _
    (λ file keys, list_to_set (file_matches w root file) ∪ keys)).
  - by rewrite fold_file_matches.
  - intros file Hf keys'. apply scan_file_outcome. by apply Hrep.
Qed.

Lemma scan_dir_returned (w : world) (root : list N)
    (files : list (list N)) (keys keys' : gset (list N)) :
  outcome (for_each files (scan_file w root) keys) = inr keys' →
  keys' = list_to_set (flat_map (file_matches w root) files) ∪ keys ∧
  (∀ file, file ∈ files → reportable w root file) ∧
  trace (for_each files (scan_file w root) keys)
  = flat_map (file_events w root) files.
Proof.
  intros Hr.
  set (g := λ file (keys : gset (list N)),
         list_to_set (file_matches w root file) ∪ keys).
  assert (∀ x s s', outcome (scan_file w root x s) = inr s' → s' = g x s)
    as Hinv by (intros x s s' H; by apply scan_file_returned in H as [? _]).
  assert (∀ x s s1, outcome (scan_file w root x s) = inr s1 →
            trace (scan_file w root x s) = file_events w root x) as Htr
    by (intros x s s1 H; by apply scan_file_returned in H as (_ & _ & ?)).
  destruct (for_each_returned _ g _ _ _ Hinv Hr) as [-> Hall].
  split; [subst g; by rewrite fold_file_matches|]. split.
  - intros file Hf. destruct (Hall file Hf) as [s0 H0].
    by apply scan_file_returned in H0 as (_ & ? & _).
  - apply (for_each_trace _ _ _ _ _ Htr Hr).
Qed.

Lemma find_tr_keys_returns w directory :
  all_reportable w directory →
  outcome (find_tr_keys w directory)
  = inr (list_to_set (tree_matches w directory)).
Proof.
  intros Hrep. unfold find_tr_keys, tree_matches. rewrite emit_bind.
  cbn [outcome snd].
  rewrite (for_each_returns _
    (λ '(root, _, files) keys,
       list_to_set (flat_map (file_matches w root) files) ∪ keys)).
  - rewrite fold_dir_matches. f_equal. set_solver.
  - intros [[root dirs] files] Hin keys. apply scan_dir_outcome.
    intros file Hf. by apply (Hrep root dirs files).
Qed.

Lemma find_tr_keys_returned (w : world) (directory : list N)
    (keys : gset (list N)) :
  outcome (find_tr_keys w directory) = inr keys →
  keys = list_to_set (tree_matches w directory) ∧
  all_reportable w directory ∧
  trace (find_tr_keys w directory)
  = EvWalk directory :: tree_events w directory.
Proof.
  unfold find_tr_keys, tree_matches, tree_events. rewrite emit_bind.
  cbn [trace outcome fst snd].
  set (body := λ '(root, _, files) keys,
         for_each (files : list (list N)) (scan_file w root) keys).
  set (g := λ x : list N * list (list N) * list (list N),
         let '(root, _, files) := x in
         λ keys : gset (list N),
           list_to_set (flat_map (file_matches w root) files) ∪ keys).
  intros Hr.
  assert (∀ x s s', outcome (body x s) = inr s' → s' = g x s) as Hinv.
  { intros [[root dirs] files] s s' H.
    by apply scan_dir_returned in H as [? _]. }
  assert (∀ x s s1, outcome (body x s) = inr s1 →
            trace (body x s)
            = (λ '(root, _, files), flat_map (file_events w root) files) x)
    as Htr.
  { intros [[root dirs] files] s s1 H.
    by apply scan_dir_returned in H as (_ & _ & ?). }
  destruct (for_each_returned body g _ _ _ Hinv Hr) as [-> Hall].
  split; [subst g; etrans; [apply fold_dir_matches|set_solver]|]. split.
  - intros root dirs files file Hin Hf.
    destruct (Hall _ Hin) as [s0 H0].
    apply scan_dir_returned in H0 as (_ & H0 & _). by apply H0.
  - f_equal. apply (for_each_trace body _ _ _ _ Htr Hr).
Qed.

Lemma elem_of_tree_matches w directory k :
  k ∈ tree_matches w directory ↔
  ∃ root dirs files file content,
    (root, dirs, files) ∈ os_walk w directory ∧ file ∈ files ∧
    endswith file source_ext = true ∧
    read_text w (path_join root file) = inr content ∧
    k ∈ findall pattern content.
Proof.
  unfold tree_matches. rewrite elem_of_flat_map. split.
  - intros ([[root dirs] files] & Hin & Hk).
    apply elem_of_flat_map in Hk as (file & Hf & Hk).
    unfold file_matches in Hk.
    destruct (endswith file source_ext) eqn:He; [|by apply elem_of_nil in Hk].
    destruct (read_text w (path_join root file)) as [e|content] eqn:Hr;
      [by apply elem_of_nil in Hk|].
    exists root, dirs, files, file, content. auto.
  - intros (root & dirs & files & file & content & Hin & Hf & He & Hr & Hk).
    exists (root, dirs, files). split; [done|].
    apply elem_of_flat_map. exists file. split; [done|].
    unfold file_matches. by rewrite He, Hr.
Qed.

Lemma elem_of_tree_events w directory ev :
  ev ∈ tree_events w directory ↔
  ∃ root dirs files file,
    (root, dirs, files) ∈ os_walk w directory ∧ file ∈ files ∧
    ev ∈ file_events w root file.
Proof.
  unfold tree_events. rewrite elem_of_flat_map. split.
  - intros ([[root dirs] files] & Hin & Hev).
    apply elem_of_flat_map in Hev as (file & Hf & Hev).
    exists root, dirs, files, file. auto.
  - intros (root & dirs & files & file & Hin & Hf & Hev).
    exists (root, dirs, files). split; [done|].
    apply elem_of_flat_map. by exists file.
Qed.

(** Whether it returns or not, the extractor does nothing but what the
    walk and the files call for. *)
Lemma find_tr_keys_trace_incl w directory ev :
  ev ∈ trace (find_tr_keys w directory) →
  ev = EvWalk directory ∨ ev ∈ tree_events w directory.
Proof.
  unfold find_tr_keys, tree_events. rewrite emit_bind. cbn [trace fst].
  intros [->|Hev]%elem_of_cons; [by left|right].
  eapply for_each_trace_incl; [|exact Hev].
  intros [[root dirs] files] s ev' Hev'.
  eapply for_each_trace_incl; [|exact Hev'].
  intros file s' ev''. apply scan_file_trace_incl.
Qed.

Lemma find_tr_keys_walks_once w directory :
  ∃ t, trace (find_tr_keys w directory) = EvWalk directory :: t ∧ no_walk t.
Proof.
  unfold find_tr_keys. rewrite emit_bind. eexists. split; [done|].
  apply for_each_no_walk. intros [[root dirs] files] keys.
  apply for_each_no_walk. intros file keys'. apply scan_file_no_walk.
Qed.

(** The only error that leaves the extractor is that of a print. *)
Lemma find_tr_keys_raised w directory ex :
  outcome (find_tr_keys w directory) = inl ex →
  ∃ text msg,
    write_error (stdout_stream w) text = Some msg ∧ ex = Exception msg.
Proof.
  unfold find_tr_keys. rewrite emit_bind. cbn [outcome snd]. intros Hr.
  apply for_each_raised in Hr as ([[root dirs] files] & s0 & _ & Hr).
  apply for_each_raised in Hr as (file & s1 & _ & Hr).
  by apply scan_file_raised in Hr.
Qed.

(** ** The engine on character runs *)

(** Every text splits into its longest run of [cs] and the rest. *)
Lemma longest_run cs (s : str) :
  ∃ w t, s = w ++ t ∧ cset_all_in cs w ∧ cset_stops cs t.
Proof.
  induction s as [|c s (w & t & -> & Hw & Ht)].
  - exists [], []. split; [done|]. split; [constructor|done].
  - destruct (cset_mem cs c) eqn:Hc.
    + exists (c :: w), t. split; [done|]. split; [by constructor|done].
    + exists [], (c :: w ++ t). split; [done|]. split; [constructor|done].
Qed.

(** When the continuation refuses every text that starts inside the set,
    giving characters back never helps: the repetition takes the longest
    run or fails. *)
Lemma repeat_greedy_exact {R} (k : str → option R) p min (w t : str) :
  Forall (λ c, p c = true) w →
  (∀ c s, p c = true → k (c :: s) = None) →
  match t with c :: _ => p c = false | [] => True end →
  repeat_greedy k p min (w ++ t)
  = if decide (min ≤ length w)%nat then k t else None.
Proof.
  intros Hw Hk Ht. revert min.
  induction Hw as [|c w Hc Hw IH]; intros min.
  - destruct t as [|c t]; cbn.
    + by destruct min.
    + rewrite Ht. by destruct min.
  - cbn [app repeat_greedy]. rewrite Hc, IH.
    assert (match min with O => k (c :: w ++ t) | S _ => None end = None)
      as -> by (destruct min; auto).
    destruct min as [|min]; cbn [pred length].
    + rewrite !decide_True by lia. by destruct (k t).
    + destruct (decide (min ≤ length w)%nat).
      * rewrite decide_True by lia. by destruct (k t).
      * by rewrite decide_False by lia.
Qed.

Lemma run_star cs cs' prog o cap (w t : str) :
  cset_all_in cs w → cset_stops cs t → cset_disjoint cs cs' →
  run (Chars ZeroOrMore cs :: Chars Once cs' :: prog) o cap (w ++ t)
  = run (Chars Once cs' :: prog) o cap t.
Proof.
  intros Hw Ht Hd. cbn [run].
  rewrite repeat_greedy_exact; [by rewrite decide_True by lia|done| |done].
  intros c s Hc. cbn. by rewrite (Hd c Hc).
Qed.

Lemma run_group cs cs' prog (w t : str) :
  cset_all_in cs w → cset_stops cs t → cset_disjoint cs cs' →
  run (MarkOpen :: Chars OneOrMore cs :: MarkClose :: Chars Once cs' :: prog)
    None None (w ++ t)
  = if decide (w = []) then None
    else run (Chars Once cs' :: prog) (Some (w ++ t)) (Some w) t.
Proof.
  intros Hw Ht Hd. cbn [run].
  rewrite repeat_greedy_exact; [|done| |done].
  - destruct w as [|c w]; [done|].
    rewrite decide_True by (cbn; lia). rewrite decide_False by done.
    cbn [run fmap option_fmap option_map]. do 3 f_equal.
    rewrite length_app.
    replace (length (c :: w) + length t - length t)%nat
      with (length (c :: w)) by lia.
    by rewrite take_app_length.
  - intros c s Hc. cbn. by rewrite (Hd c Hc).
Qed.

(** ** The key pattern and the calls it matches *)

Lemma call_text_app ws1 ws2 q1 k q2 ws3 rest :
  call_text ws1 ws2 q1 k q2 ws3 ++ rest = call_then ws1 ws2 q1 k q2 ws3 rest.
Proof.
  unfold call_text, call_then.
  repeat (rewrite <- ?app_assoc, <- ?app_comm_cons). done.
Qed.

Lemma space_is_no_delimiter c :
  is_space c = true → c ≠ 40 ∧ c ≠ 41 ∧ (c ∉ quotes) ∧ c ≠ 46.
Proof.
  intros H. repeat split; try (intros ->; by vm_compute in H).
  intros Hq. unfold quotes in Hq. rewrite !elem_of_cons in Hq.
  destruct Hq as [->|[->|Hq]]; try (by vm_compute in H).
  by apply elem_of_nil in Hq.
Qed.

Lemma space_disjoint_lit c :
  c = 40 ∨ c = 41 → cset_disjoint Space (Lit c).
Proof.
  intros Hc x Hx. cbn in *. apply N.eqb_neq.
  destruct (space_is_no_delimiter x Hx) as (? & ? & _). by destruct Hc as [->| ->].
Qed.

Lemma space_disjoint_quotes : cset_disjoint Space (OneOf quotes).
Proof.
  intros x Hx. cbn in *. apply bool_decide_eq_false.
  by destruct (space_is_no_delimiter x Hx) as (_ & _ & ? & _).
Qed.

Lemma key_disjoint_quotes : cset_disjoint (NoneOf quotes) (OneOf quotes).
Proof. intros x Hx. cbn in *. by apply negb_true_iff in Hx. Qed.

Lemma spaces_all_in ws : spaces ws ↔ cset_all_in Space ws.
Proof. done. Qed.

Lemma quote_free_all_in k : quote_free k ↔ cset_all_in (NoneOf quotes) k.
Proof.
  unfold quote_free, cset_all_in. apply Forall_proper; [|done]. intros c. cbn.
  by rewrite negb_true_iff, bool_decide_eq_false.
Qed.

Lemma run_once cs prog o cap c (s : str) :
  run (Chars Once cs :: prog) o cap (c :: s)
  = if cset_mem cs c then run prog o cap s else None.
Proof. done. Qed.

Lemma quote_mem q : cset_mem (OneOf quotes) q = true ↔ q ∈ quotes.
Proof. cbn. apply bool_decide_eq_true. Qed.

Lemma quote_stops_key q s : q ∈ quotes → cset_stops (NoneOf quotes) (q :: s).
Proof. intros Hq. cbn. by rewrite bool_decide_eq_true_2. Qed.

Lemma quote_stops_space q s : q ∈ quotes → cset_stops Space (q :: s).
Proof.
  intros Hq. cbn. destruct (is_space q) eqn:Hs; [|done].
  by destruct (space_is_no_delimiter q Hs) as (_ & _ & ? & _).
Qed.

(** The pattern matches every such call, and group 1 is the key. *)
Lemma run_call ws1 ws2 q1 k q2 ws3 rest :
  spaces ws1 → spaces ws2 → spaces ws3 →
  q1 ∈ quotes → q2 ∈ quotes → k ≠ [] → quote_free k →
  run pattern None None (call_then ws1 ws2 q1 k q2 ws3 rest)
  = Some (Some k, rest).
Proof.
  intros H1 H2 H3 Hq1 Hq2 Hk Hf. unfold call_then, pattern.
  change (cp ".tr") with [46; 116; 114]. cbn [app].
  rewrite !run_once. cbn [cset_mem N.eqb Pos.eqb].
  rewrite run_star; [|done|done|apply space_disjoint_lit; auto].
  rewrite run_once. cbn [cset_mem N.eqb Pos.eqb].
  rewrite run_star; [|done|by apply quote_stops_space|apply space_disjoint_quotes].
  rewrite run_once, (proj2 (quote_mem q1) Hq1).
  rewrite run_group;
    [|by apply quote_free_all_in|by apply quote_stops_key
     |apply key_disjoint_quotes].
  rewrite decide_False by done.
  rewrite run_once, (proj2 (quote_mem q2) Hq2).
  rewrite run_star; [|done|done|apply space_disjoint_lit; auto].
  by rewrite run_once.
Qed.


(** Conversely, whatever the pattern matches is such a call. *)
Lemma run_pattern_inv s cap rest :
  run pattern None None s = Some (cap, rest) →
  ∃ ws1 ws2 q1 k q2 ws3,
    s = call_then ws1 ws2 q1 k q2 ws3 rest ∧ cap = Some k ∧
    spaces ws1 ∧ spaces ws2 ∧ spaces ws3 ∧
    q1 ∈ quotes ∧ q2 ∈ quotes ∧ k ≠ [] ∧ quote_free k.
Proof.
  unfold pattern. intros H.
  repeat match type of H with
  | run (Chars Once (Lit _) :: _) _ _ ?s = Some _ =>
      destruct s as [|? ?]; [done|]; rewrite run_once in H; cbn [cset_mem] in H;
      match type of H with
      | (if ?c =? ?d then _ else _) = _ =>
          destruct (N.eqb_spec c d) as [->|]; [|done]
      end
  end.
  destruct (longest_run Space s) as (ws1 & t & -> & Hw1 & Ht).
  rewrite run_star in H; [|done|done|apply space_disjoint_lit; auto].
  destruct t as [|c t]; [done|]. rewrite run_once in H. cbn [cset_mem] in H.
  destruct (N.eqb_spec c 40) as [->|]; [|done]. clear Ht.
  destruct (longest_run Space t) as (ws2 & t' & -> & Hw2 & Ht).
  rewrite run_star in H; [|done|done|apply space_disjoint_quotes].
  destruct t' as [|q1 t]; [done|]. rewrite run_once in H.
  destruct (cset_mem (OneOf quotes) q1) eqn:Hq1; [|done].
  apply quote_mem in Hq1. clear Ht.
  destruct (longest_run (NoneOf quotes) t) as (k & t' & -> & Hk & Ht).
  rewrite run_group in H; [|done|done|apply key_disjoint_quotes].
  destruct (decide (k = [])) as [|Hne]; [done|].
  destruct t' as [|q2 t]; [done|]. rewrite run_once in H.
  destruct (cset_mem (OneOf quotes) q2) eqn:Hq2; [|done].
  apply quote_mem in Hq2. clear Ht.
  destruct (longest_run Space t) as (ws3 & t' & -> & Hw3 & Ht).
  rewrite run_star in H; [|done|done|apply space_disjoint_lit; auto].
  destruct t' as [|c t]; [done|]. rewrite run_once in H. cbn [cset_mem] in H.
  destruct (N.eqb_spec c 41) as [->|]; [|done].
  cbn in H. injection H as <- <-.
  exists ws1, ws2, q1, k, q2, ws3.
  rewrite quote_free_all_in. by repeat split.
Qed.

Lemma call_text_length ws1 ws2 q1 k q2 ws3 rest :
  length (call_then ws1 ws2 q1 k q2 ws3 rest)
  = (length (call_text ws1 ws2 q1 k q2 ws3) + length rest)%nat.
Proof. by rewrite <- call_text_app, length_app. Qed.

Lemma match_at_call ws1 ws2 q1 k q2 ws3 rest :
  spaces ws1 → spaces ws2 → spaces ws3 →
  q1 ∈ quotes → q2 ∈ quotes → k ≠ [] → quote_free k →
  match_at pattern (call_then ws1 ws2 q1 k q2 ws3 rest)
  = Some (k, length (call_text ws1 ws2 q1 k q2 ws3)).
Proof.
  intros. unfold match_at. rewrite run_call by done.
  rewrite call_text_length. cbn [default]. do 2 f_equal. lia.
Qed.

Lemma match_at_inv s k n :
  match_at pattern s = Some (k, n) →
  ∃ ws1 ws2 q1 q2 ws3 rest,
    s = call_then ws1 ws2 q1 k q2 ws3 rest ∧
    n = length (call_text ws1 ws2 q1 k q2 ws3) ∧
    spaces ws1 ∧ spaces ws2 ∧ spaces ws3 ∧
    q1 ∈ quotes ∧ q2 ∈ quotes ∧ k ≠ [] ∧ quote_free k.
Proof.
  unfold match_at. intros H.
  destruct (run pattern None None s) as [[cap rest]|] eqn:Hr; [|done].
  apply run_pattern_inv in Hr
    as (ws1 & ws2 & q1 & k' & q2 & ws3 & Hs & -> & ? & ? & ? & ? & ? & ? & ?).
  cbn [default] in H. injection H as <- <-. subst s.
  exists ws1, ws2, q1, q2, ws3, rest.
  rewrite call_text_length. repeat split; auto. lia.
Qed.

(** ** findall *)

Lemma findall_from_skip prog (m s : str) :
  findall_from prog (length m) (m ++ s) = findall prog s.
Proof. induction m as [|c m IH]; [done|]. cbn. apply IH. Qed.

(** A match at the head is collected and the scan resumes after it. *)
Lemma findall_match prog (m rest k : str) :
  m ≠ [] → match_at prog (m ++ rest) = Some (k, length m) →
  findall prog (m ++ rest) = k :: findall prog rest.
Proof.
  intros Hm H. destruct m as [|c m]; [done|].
  unfold findall. cbn [app findall_from]. cbn [app] in H. rewrite H.
  cbn [length pred]. by rewrite findall_from_skip.
Qed.

(** A prefix in which no attempt succeeds is passed over. *)
Lemma findall_no_match prog (pre s : str) :
  (∀ i, (i < length pre)%nat → match_at prog (drop i (pre ++ s)) = None) →
  findall prog (pre ++ s) = findall prog s.
Proof.
  induction pre as [|c pre IH]; intros H; [done|].
  unfold findall. cbn [app findall_from].
  pose proof (H 0%nat ltac:(cbn; lia)) as H0. cbn in H0. rewrite H0.
  apply IH. intros i Hi. apply (H (S i)). cbn. lia.
Qed.

(** The first quote of a text is where it is. *)
Lemma first_quote_unique (p1 p2 : str) q1 q2 t1 t2 :
  quote_free p1 → quote_free p2 → q1 ∈ quotes → q2 ∈ quotes →
  p1 ++ q1 :: t1 = p2 ++ q2 :: t2 → p1 = p2.
Proof.
  intros H1. revert p2. induction H1 as [|c p1 Hc H1 IH]; intros p2 H2 Hq1 Hq2 E.
  - destruct H2 as [|d p2 Hd H2]; [done|]. cbn in E.
    injection E as -> _. done.
  - destruct H2 as [|d p2 Hd H2]; cbn in E.
    + injection E as -> _. done.
    + injection E as -> E. f_equal. by apply IH.
Qed.

Lemma spaces_quote_free ws : spaces ws → quote_free ws.
Proof.
  intros Hws. eapply Forall_impl; [done|]. intros c Hc.
  by destruct (space_is_no_delimiter c Hc) as (_ & _ & ? & _).
Qed.

Lemma spaces_no_dot ws : spaces ws → 46 ∉ ws.
Proof.
  intros Hws Hin. eapply Forall_forall in Hws; [|done].
  by destruct (space_is_no_delimiter 46 Hws) as (_ & _ & _ & ?).
Qed.

Lemma call_head_quote_free ws1 ws2 :
  spaces ws1 → spaces ws2 → quote_free (cp ".tr" ++ ws1 ++ 40 :: ws2).
Proof.
  intros H1 H2. unfold quote_free.
  rewrite !Forall_app, Forall_cons. repeat split.
  - by vm_compute; repeat constructor; set_solver.
  - by apply spaces_quote_free.
  - vm_compute. set_solver.
  - by apply spaces_quote_free.
Qed.

(** No attempt that starts inside a receiver without quotes succeeds: the
    first quote of the text is the one of the call, and between the start
    of the attempt and that quote there is a second dot. *)
Lemma no_match_in_receiver (r : str) ws1 ws2 q1 tail :
  r ≠ [] → quote_free r → spaces ws1 → spaces ws2 → q1 ∈ quotes →
  match_at pattern (r ++ cp ".tr" ++ ws1 ++ 40 :: ws2 ++ q1 :: tail) = None.
Proof.
  intros Hr Hf H1 H2 Hq1.
  destruct (match_at pattern _) as [[k n]|] eqn:Hm; [exfalso|done].
  apply match_at_inv in Hm
    as (a & b & qa & qb & c & rest & E & _ & Ha & Hb & _ & Hqa & _).
  unfold call_then in E.
  assert (r ++ cp ".tr" ++ ws1 ++ 40 :: ws2 = cp ".tr" ++ a ++ 40 :: b) as E'.
  { apply (first_quote_unique _ _ q1 qa tail (k ++ qb :: c ++ 41 :: rest));
      [|by apply call_head_quote_free|done|done|].
    - unfold quote_free. apply Forall_app. split; [done|].
      by apply call_head_quote_free.
    - rewrite <- !app_assoc. cbn [app]. exact E. }
  destruct r as [|x r]; [done|].
  change (cp ".tr") with [46; 116; 114] in E'. cbn in E'.
  injection E' as -> E'.
  assert (46 ∈ 116 :: 114 :: a ++ 40 :: b) as Hin.
  { rewrite <- E'. apply elem_of_app. right. by left. }
  rewrite !elem_of_cons, elem_of_app, elem_of_cons in Hin.
  destruct Hin as [?|[?|[Hin|[?|Hin]]]]; try done;
    by eapply spaces_no_dot in Hin.
Qed.

(** A call after a receiver without quotes is found, whatever whitespace
    (line breaks included) stands inside its parentheses. *)
Lemma findall_call (recv : str) ws1 ws2 q1 k q2 ws3 rest :
  quote_free recv → spaces ws1 → spaces ws2 → spaces ws3 →
  q1 ∈ quotes → q2 ∈ quotes → k ≠ [] → quote_free k →
  findall pattern (recv ++ call_text ws1 ws2 q1 k q2 ws3 ++ rest)
  = k :: findall pattern rest.
Proof.
  intros Hf H1 H2 H3 Hq1 Hq2 Hk Hkf.
  rewrite findall_no_match.
  - apply findall_match.
    + unfold call_text, call_then. by destruct ws1.
    + rewrite call_text_app. by apply match_at_call.
  - intros i Hi. rewrite drop_app_le by lia.
    rewrite call_text_app. unfold call_then.
    apply no_match_in_receiver; auto.
    + intros E. apply (f_equal length) in E. rewrite length_drop in E.
      cbn in E. lia.
    + by apply Forall_drop.
Qed.

(** ** The order of keys and sorted *)

Lemma str_leb_total a b : str_leb a b = true ∨ str_leb b a = true.
Proof.
  revert b. induction a as [|x a IH]; intros [|y b]; cbn; auto.
  destruct (N.ltb_spec x y), (N.ltb_spec y x); auto; try lia.
  destruct (N.eqb_spec x y), (N.eqb_spec y x); auto; lia.
Qed.

Lemma str_leb_trans a b c :
  str_leb a b = true → str_leb b c = true → str_leb a c = true.
Proof.
  revert b c. induction a as [|x a IH]; intros [|y b] [|z c]; cbn; auto;
    try done.
  destruct (N.ltb_spec x y), (N.ltb_spec y z), (N.ltb_spec x z); auto;
    try lia;
    destruct (N.eqb_spec x y), (N.eqb_spec y z), (N.eqb_spec x z);
    try done; try lia; eauto.
Qed.

Lemma str_leb_antisym a b :
  str_leb a b = true → str_leb b a = true → a = b.
Proof.
  revert b. induction a as [|x a IH]; intros [|y b]; cbn; auto; try done.
  destruct (N.ltb_spec x y), (N.ltb_spec y x); try lia;
    destruct (N.eqb_spec x y), (N.eqb_spec y x); try done; try lia.
  intros. f_equal; auto.
Qed.

#[global] Instance str_le_total : Total str_le.
Proof. intros a b. apply str_leb_total. Qed.

#[global] Instance str_le_trans : Transitive str_le.
Proof. intros a b c. apply str_leb_trans. Qed.

#[global] Instance str_le_antisym : AntiSymm (=) str_le.
Proof. intros a b. apply str_leb_antisym. Qed.

Section sorted.
Context (iter : set_order) (Hiter : iteration_order iter).

Lemma sorted_perm X : sorted iter X ≡ₚ elements X.
Proof. unfold sorted. by rewrite merge_sort_Permutation. Qed.

Lemma sorted_sorted X : StronglySorted str_le (sorted iter X).
Proof. apply StronglySorted_merge_sort; apply _. Qed.

Lemma elem_of_sorted X k : k ∈ sorted iter X ↔ k ∈ X.
Proof. by rewrite sorted_perm, elem_of_elements. Qed.

Lemma sorted_NoDup X : NoDup (sorted iter X).
Proof. rewrite sorted_perm. apply NoDup_elements. Qed.

Lemma sorted_nil X : sorted iter X = [] ↔ X = ∅.
Proof.
  split.
  - intros E. apply set_eq. intros k. rewrite <- elem_of_sorted, E.
    set_solver.
  - intros ->. apply Permutation_nil_r. by rewrite sorted_perm, elements_empty.
Qed.

End sorted.

(** The sorted list does not depend on the order of iteration. *)
Lemma sorted_order_irrelevant iter1 iter2 X :
  iteration_order iter1 → iteration_order iter2 →
  sorted iter1 X = sorted iter2 X.
Proof.
  intros H1 H2. apply (StronglySorted_unique str_le).
  - by apply sorted_sorted.
  - by apply sorted_sorted.
  - by rewrite !sorted_perm.
Qed.

(** ** The report of one localization file *)

Lemma bind_returned {A B} (m : M A) (f : A → M B) (b : B) :
  outcome (m ≫= f) = inr b →
  ∃ a, outcome m = inr a ∧ outcome (f a) = inr b.
Proof.
  destruct m as [t [e|a]]; [done|]. intros H. exists a. split; [done|].
  by rewrite (bind_returns (t, inr a) f a eq_refl) in H.
Qed.

Lemma print_single w (l : list N) : print w l = print_lines w [l].
Proof.
  unfold print, print_lines. cbn [written refusal].
  by destruct (write_error (stdout_stream w) l).
Qed.

Lemma report_block_prints iter w header none X :
  report_block iter w header none X
  = print_lines w (block_of iter header none X).
Proof.
  unfold report_block, block_of. destruct (decide (X = ∅)) as [->|Hne].
  - rewrite bool_decide_false by auto. apply print_single.
  - rewrite bool_decide_true by done.
    by rewrite print_bullets, print_lines_cons.
Qed.

Lemma block_of_lines iter header none X :
  iteration_order iter →
  block_of iter header none X = block_lines header none (sorted iter X).
Proof.
  intros Hiter. unfold block_of, block_lines.
  destruct (decide (X = ∅)) as [->|Hne].
  - by rewrite (proj2 (sorted_nil iter Hiter ∅) eq_refl).
  - destruct (sorted iter X) eqn:E; [|done].
    by apply (sorted_nil iter Hiter) in E.
Qed.

Lemma after_error_cases (w : world) (lang_file e : list N)
    (used : gset (list N)) :
  (can_print w (error_line lang_file e) ∧
   after_error w lang_file e used
   = ([EvPrint (error_line lang_file e)], inr used)) ∨
  (∃ msg,
     write_error (stdout_stream w) (error_line lang_file e) = Some msg ∧
     after_error w lang_file e used = ([], inl (Exception msg))).
Proof.
  unfold after_error, can_print.
  destruct (write_error (stdout_stream w) (error_line lang_file e))
    as [msg|] eqn:Hp.
  - right. exists msg. split; [done|]. by rewrite (print_refused _ _ _ _ Hp).
  - left. split; [done|]. by rewrite (print_bind _ _ _ Hp).
Qed.

Section lang_file.
Context (iter : set_order) (w : world) (lang_dir lang_file : str).
Context (used_keys : gset str).

Let path := path_join lang_dir lang_file.

(** When its heading cannot be printed, the body raises at once: the print
    of the heading stands before the try. *)
Lemma check_lang_file_unnamed msg :
  write_error (stdout_stream w) (checking_line lang_file) = Some msg →
  check_lang_file iter w lang_dir lang_file used_keys
  = ([], inl (Exception msg)).
Proof.
  intros Hp. unfold check_lang_file.
  fold (checking_line lang_file). by rewrite (print_refused _ _ _ _ Hp).
Qed.

(** Otherwise the section is the heading, the load, the lines written
    inside the try and the end of the body. *)
Lemma check_lang_file_run :
  can_print w (checking_line lang_file) →
  check_lang_file iter w lang_dir lang_file used_keys
  = (EvPrint (checking_line lang_file) :: EvLoad path ::
     map EvPrint (guarded iter w lang_dir lang_file used_keys).1 ++
     trace (section_end w lang_file used_keys
              (guarded iter w lang_dir lang_file used_keys).2),
     outcome (section_end w lang_file used_keys
                (guarded iter w lang_dir lang_file used_keys).2)).
Proof.
  intros Hp. unfold check_lang_file, guarded.
  fold (checking_line lang_file). fold path.
  rewrite (print_bind _ _ _ Hp), emit_bind.
  assert (∀ e,
    (print w (cp "Error checking " ++ lang_file ++ cp ": " ++ e)
       ≫= λ _ : (), mret used_keys)
    = after_error w lang_file e used_keys) as Hafter by done.
  assert (∀ (t : list event) e,
    (try_except (EvLoad path :: t, inl (Exception e))
       (λ e, print w (cp "Error checking " ++ lang_file ++ cp ": " ++ e))
     ≫= λ _ : (), mret used_keys)
    = (EvLoad path :: t ++ trace (after_error w lang_file e used_keys),
       outcome (after_error w lang_file e used_keys))) as Hcatch.
  { intros t e. rewrite <- Hafter. cbn [try_except].
    destruct (print_cases w (cp "Error checking " ++ lang_file ++ cp ": " ++ e))
      as [[_ ->]|(msg & _ & ->)]; cbn; by rewrite ?app_nil_r. }
  destruct (json_load w path) as [e|v].
  { cbn [returned]. rewrite (bind_raises (raise (Exception e)) _ _ eq_refl).
    cbn [raise trace outcome fst snd map section_end]. by rewrite Hcatch. }
  unfold returned. rewrite ret_bind.
  destruct v;
    try (cbn [keys_of];
         rewrite (bind_raises (raise (Exception _)) _ _ eq_refl);
         cbn [raise trace outcome fst snd map section_end];
         by rewrite Hcatch).
  cbn [keys_of]. rewrite ret_bind. cbv zeta.
  rewrite !report_block_prints, print_lines_app.
  set (report := block_of _ _ _ _ ++ block_of _ _ _ _).
  unfold print_lines. cbn [trace outcome fst snd].
  destruct (refusal w report) as [msg|]; cbn [section_end].
  - by rewrite Hcatch.
  - cbn [try_except mbind M_bind mret M_ret trace outcome fst snd app].
    by rewrite app_nil_r.
Qed.

(** Whenever the body returns, it returns the set it was given. *)
Lemma check_lang_file_returned X :
  outcome (check_lang_file iter w lang_dir lang_file used_keys) = inr X →
  X = used_keys.
Proof.
  destruct (print_cases w (checking_line lang_file))
    as [[Hp _]|(msg & Hp & _)].
  - rewrite (check_lang_file_run Hp). cbn [outcome snd].
    destruct (guarded _ _ _ _ _).2 as [e|]; cbn [section_end].
    + destruct (after_error_cases w lang_file e used_keys)
        as [[_ ->]|(m & _ & ->)]; [by intros [= <-]|done].
    + by intros [= <-].
  - by rewrite (check_lang_file_unnamed _ Hp).
Qed.


(** A section is its heading, the load of the file and printed lines. *)
Lemma check_lang_file_shape :
  trace (check_lang_file iter w lang_dir lang_file used_keys) = [] ∨
  ∃ t,
    trace (check_lang_file iter w lang_dir lang_file used_keys)
    = EvPrint (checking_line lang_file) :: EvLoad path :: t ∧
    only_prints t.
Proof.
  destruct (print_cases w (checking_line lang_file))
    as [[Hp _]|(msg & Hp & _)].
  - right. rewrite (check_lang_file_run Hp). cbn [trace fst].
    eexists. split; [done|]. apply Forall_app. split.
    + by apply Forall_map, Forall_true.
    + destruct (guarded _ _ _ _ _).2 as [e|]; cbn [section_end];
        [|constructor].
      destruct (after_error_cases w lang_file e used_keys)
        as [[_ ->]|(m & _ & ->)]; by repeat constructor.
  - left. by rewrite (check_lang_file_unnamed _ Hp).
Qed.

Lemma check_lang_file_no_walk :
  no_walk (trace (check_lang_file iter w lang_dir lang_file used_keys)).
Proof.
  destruct check_lang_file_shape as [->|(t & -> & Ht)]; [constructor|].
  do 2 (constructor; [done|]).
  eapply Forall_impl; [done|]. by intros [].
Qed.

End lang_file.

(** ** The reporter as a whole *)

(** A loop whose body returns the state it was given, when it returns, is
    the loop in which every pass is given the initial state. *)
Lemma for_each_fixed {A S} (body : A → S → M S) l s :
  (∀ x s', outcome (body x s) = inr s' → s' = s) →
  for_each l body s = for_each l (λ x _, body x s) s.
Proof.
  intros Hb. induction l as [|x l IH]; [done|]. cbn [for_each].
  specialize (Hb x). destruct (body x s) as [t [e|s1]]; [done|].
  rewrite (Hb s1 eq_refl).
  rewrite !(bind_returns (t, inr s) _ s eq_refl). by rewrite IH.
Qed.

Section reporter.
Context (iter : set_order) (w : world) (src_dir lang_dir : str).

(** The loop over the localization files, from the set [used]. *)
Let lang_loop (used : gset str) (names : list str) : M (gset str) :=
  for_each (lang_files_of names) (check_lang_file iter w lang_dir) used.

Lemma check_langs_aborted ex :
  outcome (find_tr_keys w src_dir) = inl ex →
  check_langs iter w src_dir lang_dir
  = (trace (find_tr_keys w src_dir), inl ex).
Proof. intros H. unfold check_langs. by rewrite (bind_raises _ _ _ H). Qed.

Lemma check_langs_no_header (used : gset (list N)) (msg : list N) :
  outcome (find_tr_keys w src_dir) = inr used →
  write_error (stdout_stream w) (found_header (size used)) = Some msg →
  check_langs iter w src_dir lang_dir
  = (trace (find_tr_keys w src_dir), inl (Exception msg)).
Proof.
  intros H Hp. unfold check_langs. rewrite (bind_returns _ _ _ H).
  rewrite (print_refused _ _ _ _ Hp). cbn [trace outcome fst snd].
  by rewrite app_nil_r.
Qed.

Lemma check_langs_unlisted (used : gset (list N)) (e : list N) :
  outcome (find_tr_keys w src_dir) = inr used →
  can_print w (found_header (size used)) →
  os_listdir w lang_dir = inl e →
  check_langs iter w src_dir lang_dir
  = (trace (find_tr_keys w src_dir) ++
     [EvPrint (found_header (size used)); EvListdir lang_dir],
     inl (Exception e)).
Proof.
  intros H Hp Hls. unfold check_langs. rewrite (bind_returns _ _ _ H).
  by rewrite (print_bind _ _ _ Hp), emit_bind, Hls.
Qed.

Lemma check_langs_listed (used : gset (list N)) (names : list (list N)) :
  outcome (find_tr_keys w src_dir) = inr used →
  can_print w (found_header (size used)) →
  os_listdir w lang_dir = inr names →
  check_langs iter w src_dir lang_dir
  = (trace (find_tr_keys w src_dir) ++
     EvPrint (found_header (size used)) :: EvListdir lang_dir ::
     trace (lang_loop used names),
     match outcome (lang_loop used names) with
     | inl ex => inl ex
     | inr _ => inr tt
     end).
Proof.
  intros H Hp Hls. unfold check_langs. rewrite (bind_returns _ _ _ H).
  rewrite (print_bind _ _ _ Hp), emit_bind, Hls. unfold returned.
  rewrite ret_bind. fold (lang_files_of names). fold (lang_loop used names).
  destruct (lang_loop used names) as [t [ex|X]]; cbn; by rewrite ?app_nil_r.
Qed.

(** Every pass of the loop is given the set the extractor returned. *)
Lemma lang_loop_fixed (used : gset (list N)) (names : list (list N)) :
  lang_loop used names
  = for_each (lang_files_of names)
      (λ f _, check_lang_file iter w lang_dir f used) used.
Proof.
  apply for_each_fixed. intros f X. apply check_lang_file_returned.
Qed.

Lemma lang_loop_returns (used : gset (list N)) (names : list (list N)) :
  (∀ f, f ∈ lang_files_of names →
        outcome (check_lang_file iter w lang_dir f used) = inr used) →
  lang_loop used names
  = (flat_map (λ f, trace (check_lang_file iter w lang_dir f used))
       (lang_files_of names),
     inr used).
Proof. apply for_each_const. Qed.

Lemma lang_loop_no_walk (used : gset (list N)) (names : list (list N)) :
  no_walk (trace (lang_loop used names)).
Proof. apply for_each_no_walk. intros. apply check_lang_file_no_walk. Qed.

End reporter.


(** ** Runs on a UTF-8 standard output *)







Example scenario_keys :
  outcome (find_tr_keys demo_world (cp "/proj/src"))
  = inr (list_to_set [cp "hello.world"; cp "goodbye"]).
Proof. vm_compute. reflexivity. Qed.

(** * The claims *)

Lemma size_list_to_set_dups (l : list (list N)) :
  size (list_to_set l : gset (list N)) = length (remove_dups l).
Proof.
  rewrite <- (size_list_to_set (C := gset (list N)))
    by apply NoDup_remove_dups.
  f_equal. apply set_eq. intros k.
  by rewrite !elem_of_list_to_set, elem_of_remove_dups.
Qed.

(** C1. Whenever the extractor returns, the set it returns holds exactly
    the strings findall collects as group 1 of the key pattern in the text
    of the files whose name ends in the source extension (and that can be
    read); each key counts once. It returns for every tree in which the
    error line of each file that cannot be read can be printed, hence for
    every tree whose source files can all be read. A call is found
    whatever stands before .tr (a receiver without quote characters) and
    whatever whitespace, line breaks included, stands inside its
    parentheses; on the scenario of the specification the keys are
    hello.world and goodbye. *)
Theorem find_tr_keys_exact :
  (∀ w directory (keys : gset str),
     outcome (find_tr_keys w directory) = inr keys →
     (∀ k, k ∈ keys ↔
        ∃ root dirs files file content,
          (root, dirs, files) ∈ os_walk w directory ∧ file ∈ files ∧
          endswith file source_ext = true ∧
          read_text w (path_join root file) = inr content ∧
          k ∈ findall pattern content) ∧
     size keys = length (remove_dups (tree_matches w directory))) ∧
  (∀ w directory,
     (∀ root dirs files file e,
        (root, dirs, files) ∈ os_walk w directory → file ∈ files →
        endswith file source_ext = true →
        read_text w (path_join root file) = inl e →
        can_print w
          (cp "Error reading " ++ path_join root file ++ cp ": " ++ e)) →
     ∃ keys : gset str, outcome (find_tr_keys w directory) = inr keys) ∧
  (∀ recv ws1 ws2 q1 k q2 ws3 rest,
     quote_free recv → spaces ws1 → spaces ws2 → spaces ws3 →
     q1 ∈ quotes → q2 ∈ quotes → k ≠ [] → quote_free k →
     findall pattern (recv ++ call_text ws1 ws2 q1 k q2 ws3 ++ rest)
     = k :: findall pattern rest) ∧
  findall pattern scenario_source = [cp "hello.world"; cp "goodbye"].
Proof.
  split; [|split; [|split]].
  - intros w directory keys Hr.
    apply find_tr_keys_returned in Hr as (-> & _ & _). split.
    + intros k. rewrite elem_of_list_to_set. apply elem_of_tree_matches.
    + apply size_list_to_set_dups.
  - intros w directory Hrep. eexists. apply find_tr_keys_returns.
    intros root dirs files file Hin Hf Hext e Hr. by eapply Hrep.
  - apply findall_call.
  - by vm_compute.
Qed.

(** The second call of the scenario, through the general part of C1. *)
Lemma find_tr_keys_exact_witness :
  findall pattern
    (cp "other" ++
     call_text [] [newline; 32; 32; 32; 32] squote (cp "goodbye") squote
       [newline] ++ [])
  = [cp "goodbye"].
Proof.
  apply (proj1 (proj2 (proj2 find_tr_keys_exact)));
    try (by vm_compute; repeat constructor; set_solver).
Defined.




(** C10. The two quote characters around the key are matched
    independently: a call that opens with a double quote and closes with
    a single quote is matched, and its key is extracted. *)
Theorem mixed_quotes_match :
  dquote ≠ squote ∧
  mixed_quote_source
  = cp "i18n.tr(" ++ dquote :: cp "key" ++ squote :: cp ")" ∧
  findall pattern mixed_quote_source = [cp "key"] ∧
  outcome (find_tr_keys (single_file_world mixed_quote_source)
             (cp "/proj/src"))
  = inr {[ cp "key" ]}.
Proof. repeat split; by vm_compute. Qed.

Lemma elements_iteration_order : iteration_order elements.
Proof. by intros X. Qed.

(** C3. For a localization file whose heading is printed and that parses
    to an object, with used-key set [used] and defined-key set [defined],
    the report is made of missing = used minus defined and extra =
    defined minus used: its lines are the block of the missing keys and
    the block of the extra keys, each key once and in sorted order (or
    the confirmation when the set is empty). The section prints these
    lines in order, all of them when the stream takes them all, and
    otherwise those before the first it refuses, after which the handler
    takes over. The two differences recover the inputs: used is (used and
    defined) together with missing, defined is (used and defined)
    together with extra. A file whose heading cannot be printed is never
    parsed. *)
Theorem missing_and_extra (iter : set_order) (w : world)
    (lang_dir lang_file : str) (used : gset str)
    (members : list (str * json)) :
  iteration_order iter →
  json_load w (path_join lang_dir lang_file) = inr (JObject members) →
  let defined : gset str := list_to_set members.*1 in
  let missing := used ∖ defined in
  let extra := defined ∖ used in
  (∃ ms es,
     (StronglySorted str_le ms ∧ NoDup ms ∧ ∀ k, k ∈ ms ↔ k ∈ missing) ∧
     (StronglySorted str_le es ∧ NoDup es ∧ ∀ k, k ∈ es ↔ k ∈ extra) ∧
     let report :=
       block_lines missing_header no_missing ms ++
       block_lines orphan_header no_orphan es in
     (can_print w (checking_line lang_file) →
      Forall (can_print w) report →
      check_lang_file iter w lang_dir lang_file used
      = (EvPrint (checking_line lang_file) ::
         EvLoad (path_join lang_dir lang_file) :: map EvPrint report,
         inr used)) ∧
     (can_print w (checking_line lang_file) →
      check_lang_file iter w lang_dir lang_file used
      = (EvPrint (checking_line lang_file) ::
         EvLoad (path_join lang_dir lang_file) ::
         map EvPrint (written w report) ++
         trace (section_end w lang_file used (refusal w report)),
         outcome (section_end w lang_file used (refusal w report))))) ∧
  (∀ msg,
     write_error (stdout_stream w) (checking_line lang_file) = Some msg →
     check_lang_file iter w lang_dir lang_file used
     = ([], inl (Exception msg))) ∧
  (∀ k, k ∈ missing ↔ k ∈ used ∧ k ∉ defined) ∧
  (∀ k, k ∈ extra ↔ k ∈ defined ∧ k ∉ used) ∧
  used = (used ∩ defined) ∪ missing ∧
  defined = (used ∩ defined) ∪ extra.
Proof.
  intros Hiter Hload defined missing extra.
  assert (∀ report,
    report = block_lines missing_header no_missing (sorted iter missing) ++
             block_lines orphan_header no_orphan (sorted iter extra) →
    can_print w (checking_line lang_file) →
    check_lang_file iter w lang_dir lang_file used
    = (EvPrint (checking_line lang_file) ::
       EvLoad (path_join lang_dir lang_file) ::
       map EvPrint (written w report) ++
       trace (section_end w lang_file used (refusal w report)),
       outcome (section_end w lang_file used (refusal w report)))) as Hrun.
  { intros report -> Hp. rewrite (check_lang_file_run _ _ _ _ _ Hp).
    unfold guarded. rewrite Hload. cbv zeta. cbn [fst snd].
    by rewrite !(block_of_lines _ _ _ _ Hiter). }
  split; [|split; [|split; [|split; [|split]]]].
  - exists (sorted iter missing), (sorted iter extra).
    split; [|split; [|split]].
    + split; [by apply sorted_sorted|]. split; [by apply sorted_NoDup|].
      intros k. by apply elem_of_sorted.
    + split; [by apply sorted_sorted|]. split; [by apply sorted_NoDup|].
      intros k. by apply elem_of_sorted.
    + intros Hp Hall. rewrite (Hrun _ eq_refl Hp).
      destruct (written_all w _ Hall) as [-> ->]. cbn [section_end].
      by rewrite app_nil_r.
    + intros Hp. by apply Hrun.
  - intros msg. apply check_lang_file_unnamed.
  - intros k. apply elem_of_difference.
  - intros k. apply elem_of_difference.
  - apply set_eq. intros k. subst missing.
    rewrite elem_of_union, elem_of_intersection, elem_of_difference.
    destruct (decide (k ∈ defined)); naive_solver.
  - apply set_eq. intros k. subst extra.
    rewrite elem_of_union, elem_of_intersection, elem_of_difference.
    destruct (decide (k ∈ used)); naive_solver.
Qed.

(** The scenario of the specification: hello.world and goodbye are used,
    hello.world and extra.key are defined. *)
Lemma missing_and_extra_witness :
  let used : gset str := list_to_set [cp "hello.world"; cp "goodbye"] in
  let defined : gset str := list_to_set [cp "hello.world"; cp "extra.key"] in
  used = (used ∩ defined) ∪ (used ∖ defined) ∧
  defined = (used ∩ defined) ∪ (defined ∖ used).
Proof.
  intros used defined.
  exact (proj2 (proj2 (proj2 (proj2
    (missing_and_extra elements demo_world (cp "/proj/assets/lang")
       (cp "en.json") used
       [(cp "hello.world", JString (cp "Hello"));
        (cp "extra.key", JString (cp "X"))]
       elements_iteration_order eq_refl))))).
Defined.

Example scenario_report :
  stdout (check_lang_file elements demo_world (cp "/proj/assets/lang")
            (cp "en.json") (list_to_set [cp "hello.world"; cp "goodbye"]))
  = checking_line (cp "en.json") ++ newline ::
    missing_header ++ newline :: cp "    - goodbye" ++ newline ::
    orphan_header ++ newline :: cp "    - extra.key" ++ [newline].
Proof. by vm_compute. Qed.

(** A key written with an escaped lone surrogate: the line of the key
    cannot be printed, the section stops there and the handler prints the
    error line. *)
Example surrogate_key_report :
  trace (check_lang_file elements
           (with_json demo_world
              (λ _, inr (JObject [(cp "a", JInt 1); ([55296], JInt 2)])))
           (cp "/proj/assets/lang") (cp "en.json") ∅)
  = [EvPrint (checking_line (cp "en.json"));
     EvLoad (cp "/proj/assets/lang/en.json");
     EvPrint no_missing; EvPrint orphan_header; EvPrint (cp "    - a");
     EvPrint (cp "Error checking en.json: 'utf-8' codec can't encode character '\ud800' in position 6: surrogates not allowed")].
Proof. by vm_compute. Qed.







(** ** The reporter and the entry point *)

Lemma check_langs_walks_once (iter : set_order) (w : world)
    (src_dir lang_dir : list N) :
  ∃ t, trace (check_langs iter w src_dir lang_dir) = EvWalk src_dir :: t ∧
       no_walk t.
Proof.
  destruct (find_tr_keys_walks_once w src_dir) as (t0 & Ht0 & Hno).
  destruct (outcome (find_tr_keys w src_dir)) as [ex|used] eqn:Hout.
  { rewrite (check_langs_aborted _ _ _ _ _ Hout). cbn [trace fst]. eauto. }
  destruct (write_error (stdout_stream w) (found_header (size used)))
    as [msg|] eqn:Hp.
  { rewrite (check_langs_no_header _ _ _ _ _ _ Hout Hp). cbn [trace fst].
    eauto. }
  destruct (os_listdir w lang_dir) as [e|names] eqn:Hls.
  - rewrite (check_langs_unlisted _ _ _ _ _ e Hout Hp Hls). cbn [trace fst].
    rewrite Ht0. eexists. split; [done|].
    apply Forall_app. split; [done|]. by repeat constructor.
  - rewrite (check_langs_listed _ _ _ _ _ names Hout Hp Hls).
    cbn [trace fst]. rewrite Ht0. eexists. split; [done|].
    apply Forall_app. split; [done|]. do 2 (constructor; [done|]).
    apply lang_loop_no_walk.
Qed.











(** C7. The reporter calls the extractor once, as the first thing it
    does: its trace starts with the walk of the source directory and holds
    no other walk. The loop over the localization files never changes the
    set: whenever the body returns, it returns the very set it was given,
    so the loop is the loop in which every pass is given the set the
    extractor returned, and every section of the output is computed from
    that set. *)
Theorem used_keys_computed_once (iter : set_order) (w : world)
    (src_dir lang_dir : str) :
  (∃ t : list event,
     trace (check_langs iter w src_dir lang_dir) = EvWalk src_dir :: t ∧
     no_walk t) ∧
  (∀ lang_file (X X' : gset str),
     outcome (check_lang_file iter w lang_dir lang_file X) = inr X' →
     X' = X) ∧
  (∀ (used : gset str) (files : list str),
     for_each files (check_lang_file iter w lang_dir) used
     = for_each files (λ f _, check_lang_file iter w lang_dir f used) used) ∧
  (∀ (used : gset str) (names : list str),
     outcome (find_tr_keys w src_dir) = inr used →
     can_print w (found_header (size used)) →
     os_listdir w lang_dir = inr names →
     trace (check_langs iter w src_dir lang_dir)
     = trace (find_tr_keys w src_dir) ++
       EvPrint (found_header (size used)) :: EvListdir lang_dir ::
       trace (for_each (lang_files_of names)
                (λ f _, check_lang_file iter w lang_dir f used) used) ∧
     ((∀ f, f ∈ lang_files_of names →
            outcome (check_lang_file iter w lang_dir f used) = inr used) →
      check_langs iter w src_dir lang_dir
      = (trace (find_tr_keys w src_dir) ++
         EvPrint (found_header (size used)) :: EvListdir lang_dir ::
         flat_map (λ f, trace (check_lang_file iter w lang_dir f used))
           (lang_files_of names),
         inr tt))).
Proof.
  split; [apply check_langs_walks_once|]. split; [|split].
  - intros lang_file X X'. apply check_lang_file_returned.
  - intros used files. apply for_each_fixed.
    intros f X. apply check_lang_file_returned.
  - intros used names Hused Hhead Hls.
    rewrite (check_langs_listed _ _ _ _ _ names Hused Hhead Hls). split.
    + cbn [trace fst]. by rewrite lang_loop_fixed.
    + intros Hret. by rewrite lang_loop_returns.
Qed.

Lemma used_keys_computed_once_witness :
  ∃ t, trace (check_langs elements demo_world (cp "/proj/src")
                (cp "/proj/assets/lang"))
       = EvWalk (cp "/proj/src") :: t ∧ no_walk t.
Proof.
  exact (proj1 (used_keys_computed_once elements demo_world (cp "/proj/src")
                  (cp "/proj/assets/lang"))).
Defined.




(** C9. The output does not depend on the order in which the sets of a run
    happen to yield their keys: two runs on the same directories, with
    the same contents, print the same text (and do the same in every
    other respect). *)
Theorem reporter_deterministic (w : world) (iter1 iter2 : set_order)
    (src_dir lang_dir : str) :
  iteration_order iter1 → iteration_order iter2 →
  stdout (check_langs iter1 w src_dir lang_dir)
  = stdout (check_langs iter2 w src_dir lang_dir) ∧
  check_langs iter1 w src_dir lang_dir = check_langs iter2 w src_dir lang_dir ∧
  main iter1 w = main iter2 w.
Proof.
  intros H1 H2.
  assert (∀ w header none X,
    report_block iter1 w header none X = report_block iter2 w header none X)
    as Hblock.
  { intros. unfold report_block.
    by rewrite (sorted_order_irrelevant iter1 iter2). }
  assert (∀ w dir f used,
    check_lang_file iter1 w dir f used = check_lang_file iter2 w dir f used)
    as Hfile.
  { intros w' dir f used. unfold check_lang_file.
    destruct (print_cases w' (newline :: cp "Checking: " ++ f))
      as [[Hp _]|(msg & Hp & _)];
      [|by rewrite !(print_refused _ _ _ _ Hp)].
    rewrite !(print_bind _ _ _ Hp), !emit_bind.
    destruct (json_load w' _) as [e|v]; [done|].
    unfold returned. rewrite !ret_bind.
    destruct v; try done.
    cbn [keys_of]. rewrite !ret_bind. by rewrite !Hblock. }
  assert (∀ w src lang,
    check_langs iter1 w src lang = check_langs iter2 w src lang) as Hrun.
  { intros w' src lang. unfold check_langs.
    destruct (find_tr_keys w' src) as [t [ex|used]]; [done|].
    rewrite !(bind_returns (t, inr used) _ used eq_refl).
    cbn [trace outcome fst snd].
    assert (∀ l X,
      for_each l (check_lang_file iter1 w' lang) X
      = for_each l (check_lang_file iter2 w' lang) X) as Hloop.
    { intros l. induction l as [|f l IH]; intros X; [done|].
      cbn [for_each]. rewrite Hfile.
      destruct (check_lang_file iter2 w' lang f X) as [t' [ex|X']]; [done|].
      rewrite !(bind_returns (t', inr X') _ X' eq_refl). by rewrite IH. }
    destruct (print_cases w' (found_header (size used)))
      as [[Hp _]|(msg & Hp & _)];
      [|by rewrite !(print_refused _ _ _ _ Hp)].
    rewrite !(print_bind _ _ _ Hp), !emit_bind.
    destruct (os_listdir w' lang) as [e|names]; [done|].
    unfold returned. rewrite !ret_bind. by rewrite Hloop. }
  split; [by rewrite Hrun|]. split; [done|].
  unfold main. by rewrite Hrun.
Qed.

Lemma reversed_iteration_order : iteration_order reversed_order.
Proof. intros X. unfold reversed_order. by rewrite reverse_Permutation. Qed.

Lemma reporter_deterministic_witness :
  stdout (check_langs elements demo_world (cp "/proj/src")
            (cp "/proj/assets/lang"))
  = stdout (check_langs reversed_order demo_world (cp "/proj/src")
              (cp "/proj/assets/lang")).
Proof.
  exact (proj1 (reporter_deterministic demo_world elements reversed_order
                  (cp "/proj/src") (cp "/proj/assets/lang")
                  elements_iteration_order reversed_iteration_order)).
Defined.

(** * Further properties of the extractor and the reporter *)

(** ** The events of the extractor *)

Lemma file_events_inv w root file ev :
  ev ∈ file_events w root file →
  endswith file source_ext = true ∧
  (ev = EvRead (path_join root file) ∨
   ∃ e, read_text w (path_join root file) = inl e ∧
        ev = EvPrint (read_error_line (path_join root file) e)).
Proof.
  unfold file_events. destruct (endswith file source_ext);
    [|by intros ?%elem_of_nil].
  intros [->|Hev]%elem_of_cons; [by auto|]. split; [done|right].
  destruct (read_text w _) as [e|content]; [|by apply elem_of_nil in Hev].
  apply elem_of_cons in Hev as [->|Hev]; [by exists e|].
  by apply elem_of_nil in Hev.
Qed.

Lemma extractor_event w directory ev :
  ev ∈ trace (find_tr_keys w directory) →
  ev = EvWalk directory ∨
  ∃ root dirs files file,
    (root, dirs, files) ∈ os_walk w directory ∧ file ∈ files ∧
    endswith file source_ext = true ∧
    (ev = EvRead (path_join root file) ∨
     ∃ e, read_text w (path_join root file) = inl e ∧
          ev = EvPrint (read_error_line (path_join root file) e)).
Proof.
  intros [->|Hev]%find_tr_keys_trace_incl; [by left|right].
  apply elem_of_tree_events in Hev
    as (root & dirs & files & file & Hin & Hf & Hev).
  apply file_events_inv in Hev as [Hext Hev].
  by exists root, dirs, files, file.
Qed.

(** X1. The extractor opens no file but those whose name ends in the
    source extension: a path it opens is the join of a walked directory
    and one of its file names with that ending. When the extractor
    returns, it has opened every such file. *)
Theorem only_source_files_are_read (w : world) (directory : str) :
  (∀ path,
     EvRead path ∈ trace (find_tr_keys w directory) →
     ∃ root dirs files file,
       (root, dirs, files) ∈ os_walk w directory ∧ file ∈ files ∧
       endswith file source_ext = true ∧ path = path_join root file) ∧
  (∀ keys : gset str,
     outcome (find_tr_keys w directory) = inr keys →
     ∀ root dirs files file,
       (root, dirs, files) ∈ os_walk w directory → file ∈ files →
       endswith file source_ext = true →
       EvRead (path_join root file) ∈ trace (find_tr_keys w directory)).
Proof.
  split.
  - intros path Hev. apply extractor_event in Hev
      as [?|(root & dirs & files & file & Hin & Hf & Hext & Hev)]; [done|].
    exists root, dirs, files, file.
    destruct Hev as [[= ->]|(e & _ & ?)]; done.
  - intros keys Hr root dirs files file Hin Hf Hext.
    apply find_tr_keys_returned in Hr as (_ & _ & ->). right.
    apply elem_of_tree_events. exists root, dirs, files, file.
    split; [done|]. split; [done|].
    unfold file_events. rewrite Hext. by left.
Qed.

(** X2. The extractor prints nothing but read errors: a line it prints is
    the error line of a file with the source extension that could not be
    read. When the extractor returns, it has printed the line of every
    such file. *)
Theorem extractor_prints_only_read_errors (w : world) (directory : str) :
  (∀ text,
     EvPrint text ∈ trace (find_tr_keys w directory) →
     ∃ root dirs files file e,
       (root, dirs, files) ∈ os_walk w directory ∧ file ∈ files ∧
       endswith file source_ext = true ∧
       read_text w (path_join root file) = inl e ∧
       text = cp "Error reading " ++ path_join root file ++ cp ": " ++ e) ∧
  (∀ keys : gset str,
     outcome (find_tr_keys w directory) = inr keys →
     ∀ root dirs files file e,
       (root, dirs, files) ∈ os_walk w directory → file ∈ files →
       endswith file source_ext = true →
       read_text w (path_join root file) = inl e →
       EvPrint (cp "Error reading " ++ path_join root file ++ cp ": " ++ e)
         ∈ trace (find_tr_keys w directory)).
Proof.
  split.
  - intros text Hev. apply extractor_event in Hev
      as [?|(root & dirs & files & file & Hin & Hf & Hext & Hev)]; [done|].
    destruct Hev as [?|(e & Hr & [= ->])]; [done|].
    by exists root, dirs, files, file, e.
  - intros keys Hret root dirs files file e Hin Hf Hext Hr.
    apply find_tr_keys_returned in Hret as (_ & _ & ->). right.
    apply elem_of_tree_events. exists root, dirs, files, file.
    split; [done|]. split; [done|].
    unfold file_events. rewrite Hext, Hr. right. by left.
Qed.

(** ** Where the keys come from *)

Lemma findall_from_elem prog skip (s k : list N) :
  k ∈ findall_from prog skip s →
  ∃ pre s' n, s = pre ++ s' ∧ match_at prog s' = Some (k, n).
Proof.
  revert skip. induction s as [|c s IH]; intros skip Hk; cbn in Hk.
  - by apply elem_of_nil in Hk.
  - destruct skip as [|skip].
    + destruct (match_at prog (c :: s)) as [[k' n]|] eqn:Hm.
      * apply elem_of_cons in Hk as [->|Hk].
        -- by exists [], (c :: s), n.
        -- destruct (IH _ Hk) as (pre & s' & n' & -> & Hm').
           by exists (c :: pre), s', n'.
      * destruct (IH _ Hk) as (pre & s' & n' & -> & Hm').
        by exists (c :: pre), s', n'.
    + destruct (IH _ Hk) as (pre & s' & n' & -> & Hm').
      by exists (c :: pre), s', n'.
Qed.

(** X3. Every key the extractor returns is the literal of a call in the
    text of a readable source file: the text holds, somewhere, .tr,
    optional whitespace, an opening parenthesis, optional whitespace, a
    quote, the key, a quote, optional whitespace and a closing
    parenthesis. The key is never empty and holds no quote character. *)
Theorem keys_are_call_literals (w : world) (directory : str)
    (keys : gset str) (k : str) :
  outcome (find_tr_keys w directory) = inr keys →
  k ∈ keys →
  k ≠ [] ∧ quote_free k ∧
  ∃ root dirs files file content pre ws1 ws2 q1 q2 ws3 post,
    (root, dirs, files) ∈ os_walk w directory ∧ file ∈ files ∧
    endswith file source_ext = true ∧
    read_text w (path_join root file) = inr content ∧
    content
    = pre ++ cp ".tr" ++ ws1 ++ 40 :: ws2 ++ q1 :: k ++ q2 :: ws3 ++
      41 :: post ∧
    spaces ws1 ∧ spaces ws2 ∧ spaces ws3 ∧ q1 ∈ quotes ∧ q2 ∈ quotes.
Proof.
  intros Hr Hk. apply find_tr_keys_returned in Hr as (-> & _ & _).
  apply elem_of_list_to_set, elem_of_tree_matches in Hk
    as (root & dirs & files & file & content & Hin & Hf & Hext & Hr & Hk).
  apply findall_from_elem in Hk as (pre & s' & n & -> & Hm).
  apply match_at_inv in Hm
    as (ws1 & ws2 & q1 & q2 & ws3 & post & -> & _ & H1 & H2 & H3 & Hq1 & Hq2
        & Hne & Hfree).
  split; [done|]. split; [done|].
  exists root, dirs, files, file, (pre ++ call_then ws1 ws2 q1 k q2 ws3 post),
    pre, ws1, ws2, q1, q2, ws3, post.
  by repeat split.
Qed.

Lemma keys_are_call_literals_witness :
  quote_free (cp "goodbye").
Proof.
  apply (keys_are_call_literals demo_world (cp "/proj/src")
           (list_to_set [cp "hello.world"; cp "goodbye"]) (cp "goodbye")).
  - vm_compute. reflexivity.
  - apply elem_of_list_to_set. right. by left.
Defined.

Lemma tree_matches_perm (w1 w2 : world) (directory : list N) :
  os_walk w1 directory ≡ₚ os_walk w2 directory →
  (∀ path, read_text w1 path = read_text w2 path) →
  (list_to_set (tree_matches w1 directory) : gset (list N))
  = list_to_set (tree_matches w2 directory).
Proof.
  intros Hwalk Hread. apply set_eq. intros k.
  rewrite !elem_of_list_to_set, !elem_of_tree_matches.
  split; intros (root & dirs & files & file & content & Hin & Hf & He & Hr & Hk);
    exists root, dirs, files, file, content.
  - rewrite <- Hwalk, <- Hread. auto.
  - rewrite Hwalk, Hread. auto.
Qed.

(** X4. The order in which the walk yields the directories does not
    matter to the set returned: two trees with the same files, walked in
    different orders, give the same set of keys whenever both runs return;
    and on the same standard output, one run returns when the other
    does. *)
Theorem walk_order_is_irrelevant (w1 w2 : world) (directory : str) :
  os_walk w1 directory ≡ₚ os_walk w2 directory →
  (∀ path, read_text w1 path = read_text w2 path) →
  (∀ k1 k2 : gset str,
     outcome (find_tr_keys w1 directory) = inr k1 →
     outcome (find_tr_keys w2 directory) = inr k2 → k1 = k2) ∧
  (stdout_stream w1 = stdout_stream w2 →
   ∀ k : gset str,
     outcome (find_tr_keys w1 directory) = inr k →
     outcome (find_tr_keys w2 directory) = inr k).
Proof.
  intros Hwalk Hread. split.
  - intros k1 k2 H1 H2.
    apply find_tr_keys_returned in H1 as (-> & _ & _).
    apply find_tr_keys_returned in H2 as (-> & _ & _).
    by apply tree_matches_perm.
  - intros Hout k H1. apply find_tr_keys_returned in H1 as (-> & Hrep & _).
    rewrite (tree_matches_perm w1 w2 directory Hwalk Hread).
    apply find_tr_keys_returns.
    intros root dirs files file Hin Hf Hext e Hr.
    rewrite <- Hwalk in Hin. rewrite <- Hread in Hr.
    unfold can_print. rewrite <- Hout. by apply (Hrep root dirs files file).
Qed.

Lemma walk_order_is_irrelevant_witness :
  outcome (find_tr_keys
             (with_walk demo_world (λ d, reverse (os_walk demo_world d)))
             (cp "/proj/src"))
  = inr (list_to_set [cp "hello.world"; cp "goodbye"]).
Proof.
  refine (proj2 (walk_order_is_irrelevant demo_world
                   (with_walk demo_world (λ d, reverse (os_walk demo_world d)))
                   (cp "/proj/src") _ _) eq_refl _ _).
  - cbn [os_walk with_walk]. by rewrite reverse_Permutation.
  - done.
  - vm_compute. reflexivity.
Defined.

(** ** The sections of the report *)

(** X5. A localization file that parses to anything but an object (an
    array, a string, a number, null) is an error of that file: when its
    heading and its error line can be printed, its section is the heading
    and one error line with the message of the missing [keys] method, no
    report is printed, and the loop goes on with the same used-key set. *)
Theorem non_object_file_is_an_error (iter : set_order) (w : world)
    (lang_dir lang_file : str) (used : gset str) (v : json) :
  json_load w (path_join lang_dir lang_file) = inr v →
  (∀ members, v ≠ JObject members) →
  can_print w (newline :: cp "Checking: " ++ lang_file) →
  can_print w
    (cp "Error checking " ++ lang_file ++ cp ": " ++
     squote :: type_name v ++ squote ::
     cp " object has no attribute 'keys'") →
  check_lang_file iter w lang_dir lang_file used
  = ([EvPrint (newline :: cp "Checking: " ++ lang_file);
      EvLoad (path_join lang_dir lang_file);
      EvPrint (cp "Error checking " ++ lang_file ++ cp ": " ++
               squote :: type_name v ++ squote ::
               cp " object has no attribute 'keys'")],
     inr used).
Proof.
  intros Hload Hv Hhead Herr.
  rewrite (check_lang_file_run _ _ _ _ _ Hhead). unfold guarded.
  rewrite Hload.
  destruct (after_error_cases w lang_file (no_keys_message v) used)
    as [[_ Hrun]|(m & Hm & _)].
  - destruct v; try (by destruct (Hv members));
      cbn [fst snd map app section_end]; by rewrite Hrun.
  - unfold can_print in Herr. unfold error_line, no_keys_message in Hm.
    congruence.
Qed.

Lemma non_object_file_is_an_error_witness :
  outcome (check_lang_file elements
             (with_json demo_world (λ _, inr (JArray [])))
             (cp "/proj/assets/lang") (cp "en.json") ∅)
  = inr ∅.
Proof.
  by rewrite (non_object_file_is_an_error elements
                (with_json demo_world (λ _, inr (JArray [])))
                (cp "/proj/assets/lang") (cp "en.json") ∅ (JArray [])
                eq_refl ltac:(discriminate) eq_refl eq_refl).
Defined.

(** The lines written are the lines up to the first one refused, and the
    stream took each of them. *)
Lemma written_prefix w (lines : list (list N)) :
  ∃ rest,
    lines = written w lines ++ rest ∧
    (refusal w lines = None → rest = []) ∧
    (∀ msg, refusal w lines = Some msg → rest ≠ []).
Proof.
  induction lines as [|l ls (rest & IH & Hnone & Hsome)].
  - exists []. by repeat split.
  - cbn [written refusal].
    destruct (write_error (stdout_stream w) l) as [msg|].
    + exists (l :: ls). by repeat split.
    + exists rest. cbn [app]. split; [by rewrite <- IH|done].
Qed.

Lemma written_can_print w (lines : list (list N)) :
  Forall (can_print w) (written w lines).
Proof.
  induction lines as [|l ls IH]; [constructor|]. cbn [written].
  destruct (write_error (stdout_stream w) l) as [msg|] eqn:Hl;
    [constructor|by constructor].
Qed.

Lemma elem_of_written w (lines : list (list N)) (l : list N) :
  l ∈ written w lines → l ∈ lines.
Proof.
  destruct (written_prefix w lines) as (rest & E & _). intros Hl.
  rewrite E. apply elem_of_app. by left.
Qed.

(** A report that opens with the two confirmations is the two
    confirmations. *)
Lemma report_starts (iter : set_order) (h1 n1 h2 n2 : list N) (X Y : gset (list N))
    (rest : list (list N)) :
  h1 ≠ n1 → h2 ≠ n2 →
  block_of iter h1 n1 X ++ block_of iter h2 n2 Y = n1 :: n2 :: rest →
  X = ∅ ∧ Y = ∅ ∧ rest = [].
Proof.
  intros H1 H2. unfold block_of.
  destruct (decide (X = ∅)) as [->|HX]; cbn [app].
  - destruct (decide (Y = ∅)) as [->|HY]; intros E.
    + injection E as <-. done.
    + injection E as E _. by destruct H2.
  - intros E. injection E as E _. by destruct H1.
Qed.

Lemma print_events_inj (l l' : list (list N)) :
  map EvPrint l = map EvPrint l' → l = l'.
Proof.
  revert l'. induction l as [|x l IH]; intros [|y l']; cbn; try done.
  intros [= -> E]. by rewrite (IH _ E).
Qed.

Lemma last_of_two {A} (l : list A) (a b c : A) : l ++ [c] = [a; b] → c = b.
Proof. destruct l as [|x [|y [|z l]]]; by intros [=]. Qed.

Lemma missing_lines_differ : missing_header ≠ no_missing.
Proof.
  intros E. apply (f_equal (λ l : list N, l !! 2%nat)) in E.
  vm_compute in E. discriminate E.
Qed.

Lemma orphan_lines_differ : orphan_header ≠ no_orphan.
Proof.
  intros E. apply (f_equal (λ l : list N, l !! 2%nat)) in E.
  vm_compute in E. discriminate E.
Qed.

Lemma error_line_not_confirmation f e : error_line f e ≠ no_orphan.
Proof.
  intros E. apply (f_equal (λ l : list N, l !! 0%nat)) in E.
  discriminate E.
Qed.

(** X6. For a file that parses to an object, the section consists of the
    heading and the two confirmations (no missing key, no orphan key) if
    and only if the keys the file defines are exactly the keys the source
    uses and the standard output takes the three lines. *)
Theorem both_confirmations_iff_same_keys (iter : set_order) (w : world)
    (lang_dir lang_file : str) (used : gset str)
    (members : list (str * json)) :
  json_load w (path_join lang_dir lang_file) = inr (JObject members) →
  trace (check_lang_file iter w lang_dir lang_file used)
  = [EvPrint (checking_line lang_file);
     EvLoad (path_join lang_dir lang_file);
     EvPrint no_missing; EvPrint no_orphan]
  ↔ used = list_to_set members.*1 ∧
    Forall (can_print w) [checking_line lang_file; no_missing; no_orphan].
Proof.
  intros Hload.
  set (defined := list_to_set members.*1 : gset (list N)).
  set (report := block_of iter missing_header no_missing (used ∖ defined) ++
                 block_of iter orphan_header no_orphan (defined ∖ used)).
  assert (guarded iter w lang_dir lang_file used
          = (written w report, refusal w report)) as Hg
    by (unfold guarded; by rewrite Hload).
  split.
  - intros E.
    destruct (print_cases w (checking_line lang_file))
      as [[Hp _]|(msg & Hp & _)];
      [|by rewrite (check_lang_file_unnamed _ _ _ _ _ _ Hp) in E].
    rewrite (check_lang_file_run _ _ _ _ _ Hp), Hg in E.
    cbn [trace fst snd] in E. injection E as E.
    destruct (written_prefix w report) as (rest & Hrep & Hnone & Hsome).
    pose proof (written_can_print w report) as Hcan.
    change [EvPrint no_missing; EvPrint no_orphan]
      with (map EvPrint [no_missing; no_orphan]) in E.
    assert (written w report = [no_missing; no_orphan] ∧ rest = []) as [Hw ->].
    { destruct (refusal w report) as [msg|] eqn:Href; cbn [section_end] in E.
      - destruct (after_error_cases w lang_file msg used)
          as [[_ Ha]|(m & _ & Ha)]; rewrite Ha in E; cbn [trace fst] in E.
        + change [EvPrint (error_line lang_file msg)]
            with (map EvPrint [error_line lang_file msg]) in E.
          rewrite <- map_app in E.
          apply print_events_inj, last_of_two in E.
          by apply error_line_not_confirmation in E.
        + rewrite app_nil_r in E. apply print_events_inj in E.
          rewrite E in Hrep. cbn [app] in Hrep.
          apply report_starts in Hrep as (_ & _ & ->);
            [|apply missing_lines_differ|apply orphan_lines_differ].
          by destruct (Hsome msg eq_refl).
      - rewrite app_nil_r in E. apply print_events_inj in E.
        split; [done|by apply Hnone]. }
    rewrite Hw in Hrep, Hcan. cbn [app] in Hrep.
    apply report_starts in Hrep as (HX & HY & _);
      [|apply missing_lines_differ|apply orphan_lines_differ].
    split; [|by constructor].
    apply set_eq. intros k.
    assert (k ∉ used ∖ defined) as N1 by (rewrite HX; set_solver).
    assert (k ∉ defined ∖ used) as N2 by (rewrite HY; set_solver).
    rewrite elem_of_difference in N1, N2.
    destruct (decide (k ∈ used)), (decide (k ∈ defined)); naive_solver.
  - intros [Hused Hcan].
    apply Forall_cons in Hcan as [Hp Hcan].
    rewrite (check_lang_file_run _ _ _ _ _ Hp), Hg.
    assert (report = [no_missing; no_orphan]) as ->.
    { unfold report, block_of. fold defined in Hused. rewrite Hused.
      replace (defined ∖ defined) with (∅ : gset (list N)) by set_solver.
      by destruct (decide ((∅ : gset (list N)) = ∅)). }
    destruct (written_all w _ Hcan) as [-> ->]. done.
Qed.

Lemma both_confirmations_iff_same_keys_witness :
  trace (check_lang_file elements demo_world (cp "/proj/assets/lang")
           (cp "en.json") (list_to_set [cp "hello.world"; cp "extra.key"]))
  = [EvPrint (checking_line (cp "en.json"));
     EvLoad (path_join (cp "/proj/assets/lang") (cp "en.json"));
     EvPrint no_missing; EvPrint no_orphan].
Proof.
  apply (both_confirmations_iff_same_keys elements demo_world
           (cp "/proj/assets/lang") (cp "en.json")
           (list_to_set [cp "hello.world"; cp "extra.key"])
           [(cp "hello.world", JString (cp "Hello"));
            (cp "extra.key", JString (cp "X"))]
           eq_refl).
  split; [reflexivity|]. by repeat constructor.
Defined.

Lemma bullet_inj k k' : bullet k = bullet k' → k = k'.
Proof. unfold bullet. apply app_inv_head. Qed.

Lemma third_char_of_bullet k : bullet k !! 2%nat = Some 32.
Proof. done. Qed.

Lemma first_char_of_bullet k : bullet k !! 0%nat = Some 32.
Proof. done. Qed.

(** A block prints the line of a key exactly when the key is listed. *)
Lemma bullet_in_block header none ks k :
  header !! 2%nat ≠ Some 32 → none !! 2%nat ≠ Some 32 →
  bullet k ∈ block_lines header none ks ↔ k ∈ ks.
Proof.
  intros Hh Hn. unfold block_lines. destruct ks as [|x ks].
  - split; [|by intros ?%elem_of_nil].
    intros [E|?%elem_of_nil]%elem_of_cons; [|done].
    rewrite <- E, third_char_of_bullet in Hn. done.
  - rewrite elem_of_cons. split.
    + intros [E|Hk].
      * rewrite <- E, third_char_of_bullet in Hh. done.
      * apply list_elem_of_fmap in Hk as (k' & E & Hk').
        by rewrite (bullet_inj _ _ E).
    + intros Hk. right. apply list_elem_of_fmap. by exists k.
Qed.

Lemma bullet_in_report ms es k :
  bullet k ∈ report_lines ms es ↔ k ∈ ms ∨ k ∈ es.
Proof.
  unfold report_lines. rewrite elem_of_app.
  by rewrite !bullet_in_block.
Qed.

Lemma bullet_is_no_heading k f : bullet k ≠ checking_line f.
Proof.
  intros E. apply (f_equal (λ l : list N, l !! 0%nat)) in E.
  discriminate E.
Qed.

Lemma bullet_is_no_error_line k f e : bullet k ≠ error_line f e.
Proof.
  intros E. apply (f_equal (λ l : list N, l !! 0%nat)) in E.
  discriminate E.
Qed.

(** X7. For a file that parses to an object, a key whose line is printed
    in the section is in one of the two sets and not in the other: used
    and not defined (missing) or defined and not used (orphan); a key that
    is both used and defined is never printed. When the standard output
    takes the heading and the lines of the report, the line of every such
    key is printed. *)
Theorem key_line_iff_in_one_set (iter : set_order) (w : world)
    (lang_dir lang_file : str) (used : gset str)
    (members : list (str * json)) (k : str) :
  iteration_order iter →
  json_load w (path_join lang_dir lang_file) = inr (JObject members) →
  (EvPrint (cp "    - " ++ k)
     ∈ trace (check_lang_file iter w lang_dir lang_file used) →
   (k ∈ used ∧ k ∉ members.*1) ∨ (k ∈ members.*1 ∧ k ∉ used)) ∧
  (can_print w (checking_line lang_file) →
   Forall (can_print w)
     (report_lines (sorted iter (used ∖ list_to_set members.*1))
        (sorted iter (list_to_set members.*1 ∖ used))) →
   (k ∈ used ∧ k ∉ members.*1) ∨ (k ∈ members.*1 ∧ k ∉ used) →
   EvPrint (cp "    - " ++ k)
     ∈ trace (check_lang_file iter w lang_dir lang_file used)).
Proof.
  intros Hiter Hload. change (cp "    - " ++ k) with (bullet k).
  set (defined := list_to_set members.*1 : gset (list N)).
  set (report := report_lines (sorted iter (used ∖ defined))
                   (sorted iter (defined ∖ used))).
  assert (guarded iter w lang_dir lang_file used
          = (written w report, refusal w report)) as Hg.
  { unfold guarded. rewrite Hload. cbv zeta.
    by rewrite !(block_of_lines _ _ _ _ Hiter). }
  assert (bullet k ∈ report ↔
          (k ∈ used ∧ k ∉ members.*1) ∨ (k ∈ members.*1 ∧ k ∉ used)) as Hk.
  { unfold report. rewrite bullet_in_report, !elem_of_sorted by done.
    unfold defined. rewrite !elem_of_difference, !elem_of_list_to_set.
    done. }
  split.
  - intros H.
    destruct (print_cases w (checking_line lang_file))
      as [[Hp _]|(msg & Hp & _)];
      [|rewrite (check_lang_file_unnamed _ _ _ _ _ _ Hp) in H;
        by apply elem_of_nil in H].
    rewrite (check_lang_file_run _ _ _ _ _ Hp), Hg in H.
    cbn [trace fst snd] in H.
    apply elem_of_cons in H as [E|H].
    { destruct (bullet_is_no_heading k lang_file). congruence. }
    apply elem_of_cons in H as [E|H]; [done|].
    apply elem_of_app in H as [H|H].
    + apply list_elem_of_fmap in H as (line & E & Hline).
      assert (line = bullet k) as -> by congruence.
      by apply Hk, (elem_of_written w).
    + destruct (refusal w report) as [msg|]; cbn [section_end] in H;
        [|by apply elem_of_nil in H].
      destruct (after_error_cases w lang_file msg used)
        as [[_ Ha]|(m & _ & Ha)]; rewrite Ha in H; cbn [trace fst] in H.
      * apply elem_of_cons in H as [E|H]; [|by apply elem_of_nil in H].
        destruct (bullet_is_no_error_line k lang_file msg). congruence.
      * by apply elem_of_nil in H.
  - intros Hp Hcan Hin.
    rewrite (check_lang_file_run _ _ _ _ _ Hp), Hg. cbn [trace fst snd].
    destruct (written_all w _ Hcan) as [-> _].
    right. right. apply elem_of_app. left.
    apply list_elem_of_fmap. exists (bullet k). split; [done|]. by apply Hk.
Qed.

Lemma key_line_iff_in_one_set_witness :
  EvPrint (cp "    - " ++ cp "goodbye")
    ∈ trace (check_lang_file elements demo_world (cp "/proj/assets/lang")
               (cp "en.json") (list_to_set [cp "hello.world"; cp "goodbye"])).
Proof.
  apply (proj2 (key_line_iff_in_one_set elements demo_world
                  (cp "/proj/assets/lang") (cp "en.json")
                  (list_to_set [cp "hello.world"; cp "goodbye"])
                  [(cp "hello.world", JString (cp "Hello"));
                   (cp "extra.key", JString (cp "X"))]
                  (cp "goodbye") elements_iteration_order eq_refl)).
  - reflexivity.
  - vm_compute. by repeat constructor.
  - left. split.
    + apply elem_of_list_to_set. right. by left.
    + vm_compute. intros H. by repeat (apply elem_of_cons in H as [H|H];
        [discriminate|]); apply elem_of_nil in H.
Defined.

(** ** The files the reporter loads and the errors it lets through *)

Lemma extractor_loads_nothing w directory path :
  EvLoad path ∉ trace (find_tr_keys w directory).
Proof.
  intros Hev. apply extractor_event in Hev
    as [?|(root & dirs & files & file & _ & _ & _ & [?|(e & _ & ?)])]; done.
Qed.

Lemma check_lang_file_loads (iter : set_order) (w : world)
    (lang_dir f : list N) (used : gset (list N)) (path : list N) :
  EvLoad path ∈ trace (check_lang_file iter w lang_dir f used) →
  path = path_join lang_dir f.
Proof.
  destruct (check_lang_file_shape iter w lang_dir f used)
    as [->|(t & -> & Hp)]; [by intros ?%elem_of_nil|].
  intros H. apply elem_of_cons in H as [?|H]; [done|].
  apply elem_of_cons in H as [[= ->]|H]; [done|].
  eapply Forall_forall in Hp; [|done]. done.
Qed.

Lemma check_lang_file_returned_loads (iter : set_order) (w : world)
    (lang_dir f : list N) (used X : gset (list N)) :
  outcome (check_lang_file iter w lang_dir f used) = inr X →
  EvLoad (path_join lang_dir f)
    ∈ trace (check_lang_file iter w lang_dir f used).
Proof.
  destruct (print_cases w (checking_line f)) as [[Hp _]|(msg & Hp & _)].
  - rewrite (check_lang_file_run _ _ _ _ _ Hp). intros _.
    cbn [trace fst]. right. by left.
  - by rewrite (check_lang_file_unnamed _ _ _ _ _ _ Hp).
Qed.

(** The ways a run of the reporter can go. *)
Lemma check_langs_cases (iter : set_order) (w : world)
    (src_dir lang_dir : list N) :
  (∃ text msg,
     write_error (stdout_stream w) text = Some msg ∧
     check_langs iter w src_dir lang_dir
     = (trace (find_tr_keys w src_dir), inl (Exception msg))) ∨
  (∃ used,
     outcome (find_tr_keys w src_dir) = inr used ∧
     can_print w (found_header (size used)) ∧
     ((∃ e,
         os_listdir w lang_dir = inl e ∧
         check_langs iter w src_dir lang_dir
         = (trace (find_tr_keys w src_dir) ++
            [EvPrint (found_header (size used)); EvListdir lang_dir],
            inl (Exception e))) ∨
      (∃ names,
         os_listdir w lang_dir = inr names ∧
         check_langs iter w src_dir lang_dir
         = (trace (find_tr_keys w src_dir) ++
            EvPrint (found_header (size used)) :: EvListdir lang_dir ::
            trace (for_each (lang_files_of names)
                     (λ f _, check_lang_file iter w lang_dir f used) used),
            match outcome (for_each (lang_files_of names)
                             (λ f _, check_lang_file iter w lang_dir f used)
                             used) with
            | inl ex => inl ex
            | inr _ => inr tt
            end)))).
Proof.
  destruct (outcome (find_tr_keys w src_dir)) as [ex|used] eqn:Hfind.
  { left. destruct (find_tr_keys_raised _ _ _ Hfind) as (text & msg & Hp & ->).
    exists text, msg. split; [done|]. by apply check_langs_aborted. }
  destruct (print_cases w (found_header (size used)))
    as [[Hp _]|(msg & Hp & _)].
  - right. exists used. split; [done|]. split; [done|].
    destruct (os_listdir w lang_dir) as [e|names] eqn:Hls.
    + left. exists e. split; [done|]. by apply check_langs_unlisted.
    + right. exists names. split; [done|].
      rewrite (check_langs_listed _ _ _ _ _ names Hfind Hp Hls).
      by rewrite lang_loop_fixed.
  - left. exists (found_header (size used)), msg. split; [done|].
    by apply (check_langs_no_header _ _ _ _ used).
Qed.

(** X8. The reporter loads no file but the entries of the localization
    directory whose name ends in the localization extension: a path it
    loads is the join of the directory, which could be listed, and such
    a name. When the reporter returns, it has loaded every such entry. *)
Theorem only_lang_files_are_loaded (iter : set_order) (w : world)
    (src_dir lang_dir : str) :
  (∀ path,
     EvLoad path ∈ trace (check_langs iter w src_dir lang_dir) →
     ∃ names f,
       os_listdir w lang_dir = inr names ∧ f ∈ names ∧
       endswith f lang_ext = true ∧ path = path_join lang_dir f) ∧
  (outcome (check_langs iter w src_dir lang_dir) = inr tt →
   ∀ names f,
     os_listdir w lang_dir = inr names → f ∈ names →
     endswith f lang_ext = true →
     EvLoad (path_join lang_dir f)
       ∈ trace (check_langs iter w src_dir lang_dir)).
Proof.
  destruct (check_langs_cases iter w src_dir lang_dir)
    as [(text & msg & _ & ->)
       |(used & Hfind & Hp & [(e & Hls & ->)|(names & Hls & ->)])];
    cbn [trace outcome fst snd].
  - split; [|done]. intros path H. by apply extractor_loads_nothing in H.
  - split; [|done]. intros path [H|H]%elem_of_app;
      [by apply extractor_loads_nothing in H|].
    by repeat (apply elem_of_cons in H as [?|H]; [done|]);
      apply elem_of_nil in H.
  - split.
    + intros path [H|H]%elem_of_app;
        [by apply extractor_loads_nothing in H|].
      do 2 (apply elem_of_cons in H as [?|H]; [done|]).
      apply (for_each_trace_incl _
        (λ f, trace (check_lang_file iter w lang_dir f used))) in H;
        [|done].
      apply elem_of_flat_map in H as (f & Hf & H).
      apply list_elem_of_filter in Hf as [Hext Hf].
      apply check_lang_file_loads in H as ->. by exists names, f.
    + intros Hret names' f Hls' Hf Hext.
      rewrite Hls in Hls'. injection Hls' as <-.
      destruct (outcome (for_each _ _ _)) as [ex|X] eqn:Hloop; [done|].
      apply elem_of_app. right. right. right.
      rewrite (for_each_trace _
        (λ f, trace (check_lang_file iter w lang_dir f used)) _ _ _
        ltac:(done) Hloop).
      apply elem_of_flat_map. exists f. split;
        [by apply list_elem_of_filter|].
      destruct (for_each_returned _ (λ _ _, used) _ _ _
                  ltac:(intros x s s';
                        apply check_lang_file_returned) Hloop)
        as [_ Hall].
      destruct (Hall f ltac:(by apply list_elem_of_filter)) as [_ H0].
      by apply check_lang_file_returned_loads in H0.
Qed.

